(** * go-fsq: a fixed size queue of tasks

    A shallow embedding of the Go package [fsq] (ring buffer, task, fixed
    size queue) and the proofs of its specified properties.

    Conventions of the embedding.
    - Go's [int] is 64 bits wide: an [int] is a [Z] and every [+], [++] and
      [--] of the source goes through [GoInt.wrap].  [%] is Go's truncated
      remainder and panics on a zero divisor.
    - A [*task] is a nullable address into a heap of task objects
      ([taskref]); every method call through a pointer reads or writes
      that heap, so two references to one task see each other's writes.
    - A run-time panic (index out of range, division by zero, nil
      dereference) is the result [None]; the theorems show that the states
      the queue reaches never panic.
    - [go q.actionWrapper(task)] adds the call to the list of started
      goroutines.  The queue is meant to be used under exclusive access:
      a call of [Add] is one step of the interleaving, and so is the run
      of a started goroutine, whose action touches the caller's world
      only and whose bookkeeping follows it.  Goroutines finish in any
      order. *)

From Stdlib Require Import Ascii.
From stdpp Require Import gmap strings list fin_maps.

Set Default Proof Using "Type".
Local Open Scope Z_scope.

(** ** Go integers *)

Module GoInt.

Definition min_int : Z := - 2 ^ 63.
Definition max_int : Z := 2 ^ 63 - 1.

(** Two's complement wrap-around of a 64-bit signed integer. *)
Definition wrap (z : Z) : Z := (z + 2 ^ 63) `mod` 2 ^ 64 - 2 ^ 63.

Definition add (x y : Z) : Z := wrap (x + y).
Definition sub (x y : Z) : Z := wrap (x - y).

(** [x % y]: truncated remainder, a panic when [y] is zero. *)
Definition rem (x y : Z) : option Z :=
  if decide (y = 0) then None else Some (Z.rem x y).

Definition is_int (z : Z) : Prop := min_int ≤ z ≤ max_int.

End GoInt.

(** ** Slices and pointers *)

(** [s[i]]: a panic when [i] is out of range. *)
Definition slice_get {A} (s : list A) (i : Z) : option A :=
  if decide (0 ≤ i) then s !! Z.to_nat i else None.

(** [s[i] = x]: a panic when [i] is out of range. *)
Definition slice_set {A} (s : list A) (i : Z) (x : A) : option (list A) :=
  if decide (0 ≤ i < Z.of_nat (length s)) then Some (<[Z.to_nat i := x]> s)
  else None.

(** The address of a task object, and a [*task], which may be nil. *)
Abbreviation ptr := nat (only parsing).
Abbreviation taskref := (option ptr) (only parsing).

(** The value of Go's [error] interface built by [errors.New]: its text;
    a nil error is [None] of [option error]. *)
Abbreviation error := string (only parsing).

(** ** strings.TrimSpace

    The Go standard library function, on the bytes of a UTF-8 string: it
    removes the leading and the trailing runes that [unicode.IsSpace]
    accepts, which are U+0009..U+000D, U+0020, U+0085, U+00A0, U+1680,
    U+2000..U+200A, U+2028, U+2029, U+202F, U+205F and U+3000.  A byte
    sequence that is not the encoding of one of them is no space. *)

Module GoStrings.

Definition byte (c : ascii) : Z := Z.of_N (Ascii.N_of_ascii c).

(** The two-byte encodings: U+0085 and U+00A0. *)
Definition space2 (c d : ascii) : bool :=
  bool_decide (byte c = 194 ∧ (byte d = 133 ∨ byte d = 160)).

(** The three-byte encodings. *)
Definition space3 (c d e : ascii) : bool :=
  bool_decide
    ((byte c = 225 ∧ byte d = 154 ∧ byte e = 128)
     ∨ (byte c = 226 ∧ byte d = 128 ∧
        (128 ≤ byte e ≤ 138 ∨ byte e = 168 ∨ byte e = 169 ∨ byte e = 175))
     ∨ (byte c = 226 ∧ byte d = 129 ∧ byte e = 159)
     ∨ (byte c = 227 ∧ byte d = 128 ∧ byte e = 128)).

Fixpoint TrimLeftSpace (s : string) : string :=
  match s with
  | EmptyString => EmptyString
  | String c r =>
      if Ascii.is_space c then TrimLeftSpace r
      else match r with
           | String d r1 =>
               if space2 c d then TrimLeftSpace r1
               else match r1 with
                    | String e r2 =>
                        if space3 c d e then TrimLeftSpace r2 else s
                    | EmptyString => s
                    end
           | EmptyString => s
           end
  end.

(** The trailing spaces, read on the reversed string: the last byte
    comes first. *)
Fixpoint trim_reversed (s : string) : string :=
  match s with
  | EmptyString => EmptyString
  | String c r =>
      if Ascii.is_space c then trim_reversed r
      else match r with
           | String d r1 =>
               if space2 d c then trim_reversed r1
               else match r1 with
                    | String e r2 =>
                        if space3 e d c then trim_reversed r2 else s
                    | EmptyString => s
                    end
           | EmptyString => s
           end
  end.

Definition TrimRightSpace (s : string) : string :=
  String.rev (trim_reversed (String.rev s)).

Definition TrimSpace (s : string) : string :=
  TrimRightSpace (TrimLeftSpace s).

End GoStrings.

(** ** task.go *)

Module Task.

Definition ready : string := "r".
Definition waiting : string := "w".
Definition processing : string := "p".

(** [map[string]interface{}] and
    [func(params map[string]interface{}) error], the latter with its effect
    on the caller's world.  The values of a parameter bundle
    ([interface{}]) and the world the caller's actions act on are left
    open. *)
Abbreviation Params value := (gmap string value).
Abbreviation Action value Env :=
  (Params value → Env → Env * option error).

Section task.

Variables (value Env : Type).

Local Abbreviation Params := (Params value).
Local Abbreviation Action := (Action value Env).

Record task : Type := {
  state : string;
  action : option Action;
  params : option Params;
  id : Z;
  externalId : string
}.

(** [&task{}]: every field has its zero value. *)
Definition zero : task :=
  {| state := ""; action := None; params := None; id := 0; externalId := "" |}.

Definition SetStateReady (t : task) : task :=
  {| state := ready; action := action t; params := params t; id := id t;
     externalId := externalId t |}.

Definition SetStateWaiting (t : task) : task :=
  {| state := waiting; action := action t; params := params t; id := id t;
     externalId := externalId t |}.

Definition SetStateProcessing (t : task) : task :=
  {| state := processing; action := action t; params := params t; id := id t;
     externalId := externalId t |}.

Definition SetAction (a : option Action) (t : task) : task :=
  {| state := state t; action := a; params := params t; id := id t;
     externalId := externalId t |}.

Definition SetParams (p : option Params) (t : task) : task :=
  {| state := state t; action := action t; params := p; id := id t;
     externalId := externalId t |}.

Definition SetExternalId (e : string) (t : task) : task :=
  {| state := state t; action := action t; params := params t; id := id t;
     externalId := e |}.

Definition SetId (i : Z) (t : task) : task :=
  {| state := state t; action := action t; params := params t; id := i;
     externalId := externalId t |}.

Definition Clean (t : task) : task :=
  SetExternalId "" (SetParams None (SetAction None (SetStateReady t))).

Definition errInvalidTaskState : error :=
  "Task action and/or params are nil, cannot make call.".

(** [CallAction] in the caller's world [w]: the world after the call and
    the error returned. *)
Definition CallAction (t : task) (w : Env) : Env * option error :=
  match action t, params t with
  | Some f, Some p => f p w
  | _, _ => (w, Some errInvalidTaskState)
  end.

End task.

Arguments state {value Env} _.
Arguments action {value Env} _.
Arguments params {value Env} _.
Arguments id {value Env} _.
Arguments externalId {value Env} _.
Arguments zero {value Env}.
Arguments SetStateReady {value Env} _.
Arguments SetStateWaiting {value Env} _.
Arguments SetStateProcessing {value Env} _.
Arguments SetAction {value Env} _ _.
Arguments SetParams {value Env} _ _.
Arguments SetExternalId {value Env} _ _.
Arguments SetId {value Env} _ _.
Arguments Clean {value Env} _.
Arguments CallAction {value Env} _ _.

End Task.

(** ** The ring buffer *)

Module RingBuffer.

Record ringBuffer : Type := {
  MaxSize : Z;
  CurrentSize : Z;
  IsFull : bool;
  items : list taskref;
  head : Z;
  tail : Z
}.

Definition errFull : error := "Can't enqueue, ring buffer is full.".

Definition Enqueue (rb : ringBuffer) (task : taskref)
  : option (ringBuffer * option error) :=
  if decide (CurrentSize rb = MaxSize rb) then Some (rb, Some errFull)
  else
    tail' ← GoInt.rem (GoInt.add (head rb) (CurrentSize rb)) (MaxSize rb);
    let size' := GoInt.add (CurrentSize rb) 1 in
    items' ← slice_set (items rb) tail' task;
    Some ({| MaxSize := MaxSize rb;
             CurrentSize := size';
             IsFull := if decide (size' = MaxSize rb) then true else IsFull rb;
             items := items';
             head := head rb;
             tail := tail' |}, None).

Definition Dequeue (rb : ringBuffer) : option (ringBuffer * taskref) :=
  if decide (CurrentSize rb = 0) then Some (rb, None)
  else
    task ← slice_get (items rb) (head rb);
    items' ← slice_set (items rb) (head rb) None;
    head' ← GoInt.rem (GoInt.add (head rb) 1) (MaxSize rb);
    Some ({| MaxSize := MaxSize rb;
             CurrentSize := GoInt.sub (CurrentSize rb) 1;
             IsFull := false;
             items := items';
             head := head';
             tail := tail rb |}, task).

(** The buffer the package builds for a queue of [size] items: a slice of
    [size] nil pointers, every other field zero. *)
Definition createRingBuffer (size : Z) : ringBuffer :=
  {| MaxSize := size; CurrentSize := 0; IsFull := false;
     items := replicate (Z.to_nat size) None; head := 0; tail := 0 |}.

End RingBuffer.

(** ** fsq.go *)

Module Fsq.

Record FixedSizeQueue : Type := {
  Name : string;
  items : RingBuffer.ringBuffer;
  tasksById : gmap Z taskref;
  waitingTasksByExternalId : gmap string taskref;
  readyTaskPool : list taskref;
  countProcessing : Z;
  maxProcessing : Z;
  taskCount : Z;
  isRunning : bool
}.

Definition set_items (rb : RingBuffer.ringBuffer) (q : FixedSizeQueue) :=
  {| Name := Name q; items := rb; tasksById := tasksById q;
     waitingTasksByExternalId := waitingTasksByExternalId q;
     readyTaskPool := readyTaskPool q; countProcessing := countProcessing q;
     maxProcessing := maxProcessing q; taskCount := taskCount q;
     isRunning := isRunning q |}.

Definition set_tasksById (m : gmap Z taskref) (q : FixedSizeQueue) :=
  {| Name := Name q; items := items q; tasksById := m;
     waitingTasksByExternalId := waitingTasksByExternalId q;
     readyTaskPool := readyTaskPool q; countProcessing := countProcessing q;
     maxProcessing := maxProcessing q; taskCount := taskCount q;
     isRunning := isRunning q |}.

Definition set_waitingTasksByExternalId (m : gmap string taskref)
    (q : FixedSizeQueue) :=
  {| Name := Name q; items := items q; tasksById := tasksById q;
     waitingTasksByExternalId := m;
     readyTaskPool := readyTaskPool q; countProcessing := countProcessing q;
     maxProcessing := maxProcessing q; taskCount := taskCount q;
     isRunning := isRunning q |}.

Definition set_readyTaskPool (l : list taskref) (q : FixedSizeQueue) :=
  {| Name := Name q; items := items q; tasksById := tasksById q;
     waitingTasksByExternalId := waitingTasksByExternalId q;
     readyTaskPool := l; countProcessing := countProcessing q;
     maxProcessing := maxProcessing q; taskCount := taskCount q;
     isRunning := isRunning q |}.

Definition set_countProcessing (n : Z) (q : FixedSizeQueue) :=
  {| Name := Name q; items := items q; tasksById := tasksById q;
     waitingTasksByExternalId := waitingTasksByExternalId q;
     readyTaskPool := readyTaskPool q; countProcessing := n;
     maxProcessing := maxProcessing q; taskCount := taskCount q;
     isRunning := isRunning q |}.

Definition set_taskCount (n : Z) (q : FixedSizeQueue) :=
  {| Name := Name q; items := items q; tasksById := tasksById q;
     waitingTasksByExternalId := waitingTasksByExternalId q;
     readyTaskPool := readyTaskPool q; countProcessing := countProcessing q;
     maxProcessing := maxProcessing q; taskCount := n;
     isRunning := isRunning q |}.

Definition set_isRunning (b : bool) (q : FixedSizeQueue) :=
  {| Name := Name q; items := items q; tasksById := tasksById q;
     waitingTasksByExternalId := waitingTasksByExternalId q;
     readyTaskPool := readyTaskPool q; countProcessing := countProcessing q;
     maxProcessing := maxProcessing q; taskCount := taskCount q;
     isRunning := b |}.

(** The four admission errors. *)
Definition errNotRunning (name : string) : error :=
  "FixedSizeQueue " +:+ name +:+
  " is not running. Try starting and then adding.".

Definition errNoCapacity (name : string) : error :=
  "FixedSizeQueue " +:+ name +:+ " has no capacity at this time. Try later.".

Definition errInvalidId : error :=
  "Id for task is not valid, only uses space characters.".

Definition errDuplicateId : error :=
  "Id for task is already waiting to be processed.".

(** [Init]; the package variable [Queue] it also sets is read nowhere. *)
Definition Init (size : Z) (name : string) (maxProcessCount : Z)
  : FixedSizeQueue :=
  let size := if decide (size ≤ 0) then 1 else size in
  let rbItems := replicate (Z.to_nat size) (None : taskref) in
  let rb := {| RingBuffer.MaxSize := size;
               RingBuffer.CurrentSize := 0;
               RingBuffer.IsFull := false;
               RingBuffer.items := rbItems;
               RingBuffer.head := 0;
               RingBuffer.tail := 0 |} in
  {| Name := name;
     items := rb;
     tasksById := ∅;
     waitingTasksByExternalId := ∅;
     readyTaskPool := [];
     countProcessing := 0;
     maxProcessing := maxProcessCount;
     taskCount := 0;
     isRunning := false |}.

Definition Start (q : FixedSizeQueue) : FixedSizeQueue := set_isRunning true q.
Definition Stop (q : FixedSizeQueue) : FixedSizeQueue := set_isRunning false q.
Definition IsRunning (q : FixedSizeQueue) : bool := isRunning q.

Definition isValidId (q : FixedSizeQueue) (id : string) : bool * option error :=
  let trimmed := GoStrings.TrimSpace id in
  if decide (String.length trimmed = 0%nat) then (false, Some errInvalidId)
  else match waitingTasksByExternalId q !! id with
       | Some _ => (false, Some errDuplicateId)
       | None => (true, None)
       end.

(** [popTask] on the slice behind the pointer: the task returned and the
    slice left. *)
Definition popTask (tasks : list taskref) : taskref * list taskref :=
  let length := length tasks in
  if decide (length = 0%nat) then (None, tasks)
  else (default None (tasks !! (length - 1)%nat), take (length - 1)%nat tasks).

Section world.

Variables (value Env : Type).

Local Abbreviation task := (Task.task value Env).
Local Abbreviation Action := (Task.Action value Env).
Local Abbreviation Params := (Task.Params value).

(** The queue, the task objects it has allocated, the goroutines it has
    started and that have not finished, and the caller's world. *)
Record World : Type := {
  queue : FixedSizeQueue;
  heap : list task;
  goroutines : list taskref;
  env : Env
}.

(** A read and a write through a [*task]; nil and dangling pointers
    panic. *)
Definition deref (r : taskref) (h : list task) : option task :=
  p ← r; h !! p.

Definition update (r : taskref) (f : task → task) (h : list task)
  : option (list task) :=
  p ← r; t ← h !! p; Some (<[p := f t]> h).

Definition processTask (w : World) : option World :=
  let q := queue w in
  if decide (maxProcessing q ≤ countProcessing q) then Some w
  else
    '(rb, task) ← RingBuffer.Dequeue (items q);
    let q := set_items rb q in
    match task with
    | None => Some {| queue := q; heap := heap w;
                      goroutines := goroutines w; env := env w |}
    | Some _ =>
        t ← deref task (heap w);
        let q := set_waitingTasksByExternalId
                   (delete (Task.externalId t) (waitingTasksByExternalId q)) q in
        let q := set_countProcessing (GoInt.add (countProcessing q) 1) q in
        h ← update task Task.SetStateProcessing (heap w);
        Some {| queue := q; heap := h;
                goroutines := goroutines w ++ [task]; env := env w |}
    end.

(** Lines 99 to 110 of [Add]: a task of the pool, or a new one. *)
Definition obtainTask (q : FixedSizeQueue) (h : list task)
  : option (taskref * FixedSizeQueue * list task) :=
  if decide (0 < length (readyTaskPool q))%nat then
    let '(taskToUse, pool) := popTask (readyTaskPool q) in
    Some (taskToUse, set_readyTaskPool pool q, h)
  else
    let taskToUse : taskref := Some (length h) in
    let h := h ++ [Task.zero] in
    let q := set_taskCount (GoInt.add (taskCount q) 1) q in
    h ← update taskToUse (Task.SetId (taskCount q)) h;
    t ← deref taskToUse h;
    Some (taskToUse, set_tasksById (<[Task.id t := taskToUse]> (tasksById q)) q, h).

(** Lines 112 to 117 of [Add]: the task is filled in, indexed and
    enqueued; the error of [Enqueue] is dropped. *)
Definition fillAndEnqueue (action : option Action) (params : option Params)
    (id : string) (taskToUse : taskref) (q : FixedSizeQueue) (h : list task)
  : option (FixedSizeQueue * list task) :=
  h ← update taskToUse Task.SetStateWaiting h;
  h ← update taskToUse (Task.SetAction action) h;
  h ← update taskToUse (Task.SetParams params) h;
  h ← update taskToUse (Task.SetExternalId id) h;
  let q := set_waitingTasksByExternalId
             (<[id := taskToUse]> (waitingTasksByExternalId q)) q in
  '(rb, _) ← RingBuffer.Enqueue (items q) taskToUse;
  Some (set_items rb q, h).

Definition Add (action : option Action) (params : option Params)
    (id : string) (w : World) : option (World * option error) :=
  let q := queue w in
  if negb (isRunning q) then Some (w, Some (errNotRunning (Name q)))
  else if RingBuffer.IsFull (items q) then
    Some (w, Some (errNoCapacity (Name q)))
  else match (isValidId q id).2 with
       | Some err => Some (w, Some err)
       | None =>
           '(taskToUse, q, h) ← obtainTask q (heap w);
           '(q, h) ← fillAndEnqueue action params id taskToUse q h;
           w' ← processTask {| queue := q; heap := h;
                               goroutines := goroutines w; env := env w |};
           Some (w', None)
       end.

Definition actionWrapper (task : taskref) (w : World) : option World :=
  t ← deref task (heap w);
  let '(e, err) := Task.CallAction t (env w) in
  h ← update task Task.Clean (heap w);
  let q := set_readyTaskPool (readyTaskPool (queue w) ++ [task]) (queue w) in
  let q := set_countProcessing (GoInt.sub (countProcessing q) 1) q in
  processTask {| queue := q; heap := h; goroutines := goroutines w; env := e |}.

Definition set_queue (q : FixedSizeQueue) (w : World) : World :=
  {| queue := q; heap := heap w; goroutines := goroutines w; env := env w |}.

Definition set_goroutines (g : list taskref) (w : World) : World :=
  {| queue := queue w; heap := heap w; goroutines := g; env := env w |}.

(** The world right after [Init]. *)
Definition init_world (size : Z) (name : string) (maxProcessCount : Z)
    (e : Env) : World :=
  {| queue := Init size name maxProcessCount; heap := []; goroutines := [];
     env := e |}.

(** What can happen to a queue: a caller starts or stops it or adds a
    task, or any one of the started goroutines runs to its end. *)
Inductive step : World → World → Prop :=
| step_Start w : step w (set_queue (Start (queue w)) w)
| step_Stop w : step w (set_queue (Stop (queue w)) w)
| step_Add w action params id w' err :
    Add action params id w = Some (w', err) → step w w'
| step_go w i task w' :
    goroutines w !! i = Some task →
    actionWrapper task (set_goroutines (delete i (goroutines w)) w) = Some w' →
    step w w'.

Inductive reachable (size : Z) (name : string) (maxProcessCount : Z)
  : World → Prop :=
| reachable_init e : reachable size name maxProcessCount
                       (init_world size name maxProcessCount e)
| reachable_step w w' :
    reachable size name maxProcessCount w → step w w' →
    reachable size name maxProcessCount w'.

End world.

Arguments queue {value Env} _.
Arguments heap {value Env} _.
Arguments goroutines {value Env} _.
Arguments env {value Env} _.
Arguments deref {value Env} _ _ : simpl never.
Arguments update {value Env} _ _ _ : simpl never.
Arguments processTask {value Env} _.
Arguments obtainTask {value Env} _ _.
Arguments fillAndEnqueue {value Env} _ _ _ _ _ _.
Arguments Add {value Env} _ _ _ _.
Arguments actionWrapper {value Env} _ _.
Arguments set_queue {value Env} _ _.
Arguments set_goroutines {value Env} _ _.
Arguments init_world {value Env} _ _ _ _.
Arguments step {value Env} _ _.
Arguments reachable {value Env} _ _ _ _.

End Fsq.

(** * Specification vocabulary *)

(** ** The ring buffer as a FIFO list *)

(** A well-formed buffer: the fields are in their ranges and the slice
    has [MaxSize] slots.  A slice of [MaxSize] pointers fits the address
    space, which keeps [MaxSize] far below [2 ^ 62]. *)
Definition rb_wf (rb : RingBuffer.ringBuffer) : Prop :=
  1 ≤ RingBuffer.MaxSize rb ≤ 2 ^ 62 ∧
  Z.of_nat (length (RingBuffer.items rb)) = RingBuffer.MaxSize rb ∧
  0 ≤ RingBuffer.CurrentSize rb ≤ RingBuffer.MaxSize rb ∧
  (RingBuffer.IsFull rb = true ↔
   RingBuffer.CurrentSize rb = RingBuffer.MaxSize rb) ∧
  0 ≤ RingBuffer.head rb < RingBuffer.MaxSize rb ∧
  0 ≤ RingBuffer.tail rb < RingBuffer.MaxSize rb.

(** The item [k] places behind the head. *)
Definition rb_slot (rb : RingBuffer.ringBuffer) (k : Z) : taskref :=
  default None
    (RingBuffer.items rb !!
       Z.to_nat ((RingBuffer.head rb + k) `mod` RingBuffer.MaxSize rb)).

(** The items of the buffer, oldest first. *)
Definition rb_contents (rb : RingBuffer.ringBuffer) : list taskref :=
  rb_slot rb <$> seqZ 0 (RingBuffer.CurrentSize rb).

(** Sequences of buffer operations. *)
Inductive rb_op : Type :=
| OpEnqueue (task : taskref)
| OpDequeue.

Definition rb_exec (o : rb_op) (rb : RingBuffer.ringBuffer)
  : option RingBuffer.ringBuffer :=
  match o with
  | OpEnqueue task => fst <$> RingBuffer.Enqueue rb task
  | OpDequeue => fst <$> RingBuffer.Dequeue rb
  end.

Fixpoint rb_run (ops : list rb_op) (rb : RingBuffer.ringBuffer)
  : option RingBuffer.ringBuffer :=
  match ops with
  | [] => Some rb
  | o :: ops => rb' ← rb_exec o rb; rb_run ops rb'
  end.

(** Three items in, then three items out: the buffer left, the errors of
    the three [Enqueue] and the items of the three [Dequeue]. *)
Definition enqueue3_dequeue3 (rb : RingBuffer.ringBuffer) (A B C : taskref)
  : option (RingBuffer.ringBuffer * list (option error) * list taskref) :=
  '(rb, e1) ← RingBuffer.Enqueue rb A;
  '(rb, e2) ← RingBuffer.Enqueue rb B;
  '(rb, e3) ← RingBuffer.Enqueue rb C;
  '(rb, x) ← RingBuffer.Dequeue rb;
  '(rb, y) ← RingBuffer.Dequeue rb;
  '(rb, z) ← RingBuffer.Dequeue rb;
  Some (rb, [e1; e2; e3], [x; y; z]).

(** ** The states of a queue *)

Section vocabulary.

Variables (value Env : Type).

Local Abbreviation task := (Task.task value Env).
Local Abbreviation World := (Fsq.World value Env).

Implicit Types (w : World) (r : taskref) (p : ptr) (t : task).

(** An id that [isValidId] rejects as made of space only. *)
Definition blank (id : string) : Prop :=
  String.length (GoStrings.TrimSpace id) = 0%nat.

(** The tasks waiting in the buffer, oldest first. *)
Definition buffered (w : World) : list taskref :=
  rb_contents (Fsq.items (Fsq.queue w)).

(** The task behind [r] exists and is in state [s]. *)
Definition in_state (w : World) (s : string) (r : taskref) : Prop :=
  ∃ t, Fsq.deref r (Fsq.heap w) = Some t ∧ Task.state t = s.

(** The addresses of the tasks in state [s]. *)
Definition tasks_in_state (w : World) (s : string) : list ptr :=
  filter (λ p, Task.state <$> Fsq.heap w !! p = Some s)
         (seq 0 (length (Fsq.heap w))).

(** What holds of a queue of capacity [N] and concurrency limit [M]
    between two calls: every task is in exactly one of the buffer
    (Waiting, indexed by its external id), the pool (Ready) and the
    started goroutines (Processing). *)
Record Inv (N M : Z) (w : World) : Prop := {
  inv_rb : rb_wf (Fsq.items (Fsq.queue w));
  inv_N : RingBuffer.MaxSize (Fsq.items (Fsq.queue w)) = N;
  inv_M : Fsq.maxProcessing (Fsq.queue w) = M;
  inv_M_int : M ≤ GoInt.max_int;
  inv_count :
    Fsq.countProcessing (Fsq.queue w) = Z.of_nat (length (Fsq.goroutines w));
  inv_bound : Fsq.countProcessing (Fsq.queue w) ≤ Z.max M 0;
  inv_buf_nodup : NoDup (buffered w);
  inv_pool_nodup : NoDup (Fsq.readyTaskPool (Fsq.queue w));
  inv_run_nodup : NoDup (Fsq.goroutines w);
  inv_buf : ∀ r, r ∈ buffered w →
    ∃ t, Fsq.deref r (Fsq.heap w) = Some t ∧
         Task.state t = Task.waiting ∧ ¬ blank (Task.externalId t) ∧
         Fsq.waitingTasksByExternalId (Fsq.queue w) !! Task.externalId t
         = Some r;
  inv_wait : ∀ id r,
    Fsq.waitingTasksByExternalId (Fsq.queue w) !! id = Some r →
    r ∈ buffered w ∧
    ∃ t, Fsq.deref r (Fsq.heap w) = Some t ∧ Task.externalId t = id;
  inv_pool : ∀ r, r ∈ Fsq.readyTaskPool (Fsq.queue w) →
    in_state w Task.ready r;
  inv_run : ∀ r, r ∈ Fsq.goroutines w → in_state w Task.processing r;
  inv_cover : ∀ p, (p < length (Fsq.heap w))%nat →
    Some p ∈ buffered w ∨ Some p ∈ Fsq.readyTaskPool (Fsq.queue w) ∨
    Some p ∈ Fsq.goroutines w
}.

(** The four writes of [Add] to the task it takes in. *)
Definition filled (a : option (Task.Action value Env))
    (pr : option (Task.Params value)) (id : string) (t : task) : task :=
  Task.SetExternalId id
    (Task.SetParams pr (Task.SetAction a (Task.SetStateWaiting t))).

(** What the admission part of [Add] does to a world, before it calls
    [processTask]. *)
Definition accepted (w w1 : World) (id : string) (p : ptr) : Prop :=
  buffered w1 = buffered w ++ [Some p] ∧
  Fsq.goroutines w1 = Fsq.goroutines w ∧
  Fsq.waitingTasksByExternalId (Fsq.queue w1) =
    <[id := Some p]> (Fsq.waitingTasksByExternalId (Fsq.queue w)) ∧
  Fsq.isRunning (Fsq.queue w1) = Fsq.isRunning (Fsq.queue w) ∧
  Fsq.countProcessing (Fsq.queue w1) = Fsq.countProcessing (Fsq.queue w) ∧
  Fsq.maxProcessing (Fsq.queue w1) = Fsq.maxProcessing (Fsq.queue w) ∧
  RingBuffer.CurrentSize (Fsq.items (Fsq.queue w1)) =
    RingBuffer.CurrentSize (Fsq.items (Fsq.queue w)) + 1 ∧
  ∃ t', Fsq.heap w1 !! p = Some t' ∧ Task.state t' = Task.waiting ∧
        Task.externalId t' = id.

(** What [processTask] does to a world: nothing, or the oldest waiting
    task leaves the buffer and the index and starts to run. *)
Definition dispatched (w w' : World) (p : ptr) (t : task) : Prop :=
  buffered w = Some p :: buffered w' ∧
  Fsq.heap w !! p = Some t ∧
  Fsq.heap w' = <[p := Task.SetStateProcessing t]> (Fsq.heap w) ∧
  Fsq.goroutines w' = Fsq.goroutines w ++ [Some p] ∧
  Fsq.waitingTasksByExternalId (Fsq.queue w') =
    delete (Task.externalId t) (Fsq.waitingTasksByExternalId (Fsq.queue w)) ∧
  RingBuffer.IsFull (Fsq.items (Fsq.queue w')) = false ∧
  Fsq.readyTaskPool (Fsq.queue w') = Fsq.readyTaskPool (Fsq.queue w) ∧
  Fsq.isRunning (Fsq.queue w') = Fsq.isRunning (Fsq.queue w) ∧
  Fsq.countProcessing (Fsq.queue w) < Fsq.maxProcessing (Fsq.queue w).

(** What the bookkeeping of [actionWrapper] does to a world, before it
    calls [processTask]: the task of the [i]-th goroutine is cleaned and
    pooled. *)
Definition finished (w w1 : World) (i : nat) (p : ptr) : Prop :=
  Fsq.goroutines w !! i = Some (Some p) ∧
  Fsq.goroutines w1 = delete i (Fsq.goroutines w) ∧
  buffered w1 = buffered w ∧
  Fsq.items (Fsq.queue w1) = Fsq.items (Fsq.queue w) ∧
  Fsq.waitingTasksByExternalId (Fsq.queue w1) =
    Fsq.waitingTasksByExternalId (Fsq.queue w) ∧
  Fsq.readyTaskPool (Fsq.queue w1) =
    Fsq.readyTaskPool (Fsq.queue w) ++ [Some p] ∧
  Fsq.isRunning (Fsq.queue w1) = Fsq.isRunning (Fsq.queue w) ∧
  Fsq.maxProcessing (Fsq.queue w1) = Fsq.maxProcessing (Fsq.queue w) ∧
  Fsq.countProcessing (Fsq.queue w1) = Fsq.countProcessing (Fsq.queue w) - 1.

(** The steps that allocate no task. *)
Definition same_tasks (w w' : World) : Prop :=
  length (Fsq.heap w') = length (Fsq.heap w) ∧
  Fsq.taskCount (Fsq.queue w') = Fsq.taskCount (Fsq.queue w).

(** The number of tasks ever allocated, and the id counter. *)
Definition allocated (N M : Z) (w : World) : Prop :=
  Z.of_nat (length (Fsq.heap w)) ≤ N + Z.max M 0 ∧
  Fsq.taskCount (Fsq.queue w)
  = GoInt.wrap (Z.of_nat (length (Fsq.heap w))).

End vocabulary.

Arguments blank _ : assert.
Arguments buffered {value Env} _.
Arguments in_state {value Env} _ _ _.
Arguments tasks_in_state {value Env} _ _.
Arguments Inv {value Env} _ _ _.
Arguments filled {value Env} _ _ _ _.
Arguments accepted {value Env} _ _ _ _.
Arguments dispatched {value Env} _ _ _ _.
Arguments finished {value Env} _ _ _ _.
Arguments same_tasks {value Env} _ _.
Arguments allocated {value Env} _ _ _.

(** ** Example worlds *)

Module Examples.

(** An action that counts its calls in the caller's world, and one that
    fails. *)
Definition count_call : Task.Action unit nat := λ _ n, (S n, None).

Definition fail_inside : Task.Action unit nat :=
  λ _ n, (S n, Some "fail inside action").

(** A task with an action and params, and one with neither. *)
Definition set_task : Task.task unit nat :=
  {| Task.state := Task.processing; Task.action := Some fail_inside;
     Task.params := Some ∅; Task.id := 7; Task.externalId := "ext-42" |}.

Definition unset_task : Task.task unit nat := Task.zero.

(** A queue right after [Init], and after [Init] and [Start]. *)
Definition stopped (size M : Z) : Fsq.World unit nat :=
  Fsq.init_world size "q" M 0%nat.

Definition started (size M : Z) : Fsq.World unit nat :=
  Fsq.set_queue (Fsq.Start (Fsq.queue (stopped size M))) (stopped size M).

(** The world after an [Add] of [count_call] with empty params. *)
Definition add (id : string) (w : Fsq.World unit nat) : Fsq.World unit nat :=
  match Fsq.Add (Some count_call) (Some ∅) id w with
  | Some (w', _) => w'
  | None => w
  end.

(** Capacity 1 and limit 1: the task of "id-1" runs, that of "id-2"
    waits and fills the buffer. *)
Definition one_runs_one_waits : Fsq.World unit nat :=
  add "id-2" (add "id-1" (started 1 1)).

(** Capacity 3 and limit 1: the task of "x" runs. *)
Definition x_runs : Fsq.World unit nat := add "x" (started 3 1).

(** Capacity 2 and limit 0: the task of "a" waits. *)
Definition a_waits : Fsq.World unit nat := add "a" (started 2 0).

Definition three_in_one_out : list rb_op :=
  [OpEnqueue (Some 0%nat); OpEnqueue (Some 1%nat); OpEnqueue (Some 2%nat);
   OpDequeue].

End Examples.

(** * Further vocabulary *)

(** ** The ring buffer against a bounded FIFO list *)

(** What a caller sees of one buffer operation: the error of an
    [Enqueue], the item of a [Dequeue]. *)
Inductive rb_obs : Type :=
| ObsEnqueue (err : option error)
| ObsDequeue (task : taskref).

Definition rb_exec_obs (o : rb_op) (rb : RingBuffer.ringBuffer)
  : option (RingBuffer.ringBuffer * rb_obs) :=
  match o with
  | OpEnqueue task =>
      '(rb', err) ← RingBuffer.Enqueue rb task; Some (rb', ObsEnqueue err)
  | OpDequeue =>
      '(rb', task) ← RingBuffer.Dequeue rb; Some (rb', ObsDequeue task)
  end.

Fixpoint rb_trace (ops : list rb_op) (rb : RingBuffer.ringBuffer)
  : option (RingBuffer.ringBuffer * list rb_obs) :=
  match ops with
  | [] => Some (rb, [])
  | o :: ops =>
      '(rb1, x) ← rb_exec_obs o rb;
      '(rb2, xs) ← rb_trace ops rb1;
      Some (rb2, x :: xs)
  end.

(** The reference: a list of at most [N] items, filled at the back and
    emptied at the front. *)
Definition fifo_exec (N : Z) (o : rb_op) (l : list taskref)
  : list taskref * rb_obs :=
  match o with
  | OpEnqueue task =>
      if decide (Z.of_nat (length l) = N)
      then (l, ObsEnqueue (Some RingBuffer.errFull))
      else (l ++ [task], ObsEnqueue None)
  | OpDequeue =>
      match l with
      | [] => ([], ObsDequeue None)
      | task :: l' => (l', ObsDequeue task)
      end
  end.

Fixpoint fifo_trace (N : Z) (ops : list rb_op) (l : list taskref)
  : list taskref * list rb_obs :=
  match ops with
  | [] => (l, [])
  | o :: ops =>
      let '(l1, x) := fifo_exec N o l in
      let '(l2, xs) := fifo_trace N ops l1 in
      (l2, x :: xs)
  end.

(** The slots behind the occupied ones are nil. *)
Definition rb_vacated (rb : RingBuffer.ringBuffer) : Prop :=
  ∀ k, RingBuffer.CurrentSize rb ≤ k < RingBuffer.MaxSize rb →
       rb_slot rb k = None.

(** ** The pool as a stack *)

(** [n] calls of [popTask]: the tasks popped, first popped first, and
    the slice left. *)
Fixpoint popTasks (n : nat) (tasks : list taskref)
  : list taskref * list taskref :=
  match n with
  | O => ([], tasks)
  | S n =>
      let '(r, tasks1) := Fsq.popTask tasks in
      let '(rs, tasks2) := popTasks n tasks1 in
      (r :: rs, tasks2)
  end.

(** The world with its running flag set to [b]. *)
Definition with_flag {value Env : Type} (b : bool) (w : Fsq.World value Env)
  : Fsq.World value Env :=
  Fsq.set_queue (Fsq.set_isRunning b (Fsq.queue w)) w.

(** ** The two halves of a step *)

Section steps.

Variables (value Env : Type).

Local Abbreviation task := (Task.task value Env).
Local Abbreviation World := (Fsq.World value Env).

Implicit Types (w : World) (r : taskref) (p : ptr) (t : task).

(** [Add] after its checks and before its [processTask]: lines 99 to
    117. *)
Definition admission (a : option (Task.Action value Env))
    (pr : option (Task.Params value)) (id : string) (w : World)
  : option World :=
  '(taskToUse, q, h) ← Fsq.obtainTask (Fsq.queue w) (Fsq.heap w);
  '(q, h) ← Fsq.fillAndEnqueue a pr id taskToUse q h;
  Some {| Fsq.queue := q; Fsq.heap := h;
          Fsq.goroutines := Fsq.goroutines w; Fsq.env := Fsq.env w |}.

(** [actionWrapper] before its [processTask]: lines 160 to 169. *)
Definition completion (r : taskref) (w : World) : option World :=
  t ← Fsq.deref r (Fsq.heap w);
  let '(e, err) := Task.CallAction t (Fsq.env w) in
  h ← Fsq.update r Task.Clean (Fsq.heap w);
  let q := Fsq.set_readyTaskPool
             (Fsq.readyTaskPool (Fsq.queue w) ++ [r]) (Fsq.queue w) in
  let q := Fsq.set_countProcessing
             (GoInt.sub (Fsq.countProcessing q) 1) q in
  Some {| Fsq.queue := q; Fsq.heap := h;
          Fsq.goroutines := Fsq.goroutines w; Fsq.env := e |}.

(** What the admission writes: the task [p] it takes is the last of the
    pool, or a new one at the end of the heap, numbered by the counter;
    [t0] is the task before it is filled. *)
Definition admission_effect (a : option (Task.Action value Env))
    (pr : option (Task.Params value)) (id : string) (w w1 : World)
    (p : ptr) (t0 : task) : Prop :=
  accepted w w1 id p ∧
  Fsq.env w1 = Fsq.env w ∧
  Fsq.Name (Fsq.queue w1) = Fsq.Name (Fsq.queue w) ∧
  ((Fsq.readyTaskPool (Fsq.queue w)
    = Fsq.readyTaskPool (Fsq.queue w1) ++ [Some p] ∧
    Fsq.heap w !! p = Some t0 ∧
    Fsq.heap w1 = <[p := filled a pr id t0]> (Fsq.heap w) ∧
    Fsq.tasksById (Fsq.queue w1) = Fsq.tasksById (Fsq.queue w) ∧
    Fsq.taskCount (Fsq.queue w1) = Fsq.taskCount (Fsq.queue w))
   ∨
   (Fsq.readyTaskPool (Fsq.queue w) = [] ∧
    Fsq.readyTaskPool (Fsq.queue w1) = [] ∧
    p = length (Fsq.heap w) ∧
    t0 = Task.SetId (GoInt.add (Fsq.taskCount (Fsq.queue w)) 1) Task.zero ∧
    Fsq.heap w1 = Fsq.heap w ++ [filled a pr id t0] ∧
    Fsq.taskCount (Fsq.queue w1)
    = GoInt.add (Fsq.taskCount (Fsq.queue w)) 1 ∧
    Fsq.tasksById (Fsq.queue w1)
    = <[GoInt.add (Fsq.taskCount (Fsq.queue w)) 1 := Some p]>
        (Fsq.tasksById (Fsq.queue w)))).

(** What the end of the [i]-th goroutine writes: its task [p], [t]
    before, is cleaned after its action has run. *)
Definition completion_effect (w w1 : World) (i : nat) (p : ptr) (t : task)
  : Prop :=
  finished w w1 i p ∧
  Fsq.heap w !! p = Some t ∧
  Task.state t = Task.processing ∧
  Fsq.heap w1 = <[p := Task.Clean t]> (Fsq.heap w) ∧
  Fsq.env w1 = (Task.CallAction t (Fsq.env w)).1 ∧
  Fsq.tasksById (Fsq.queue w1) = Fsq.tasksById (Fsq.queue w) ∧
  Fsq.taskCount (Fsq.queue w1) = Fsq.taskCount (Fsq.queue w) ∧
  Fsq.Name (Fsq.queue w1) = Fsq.Name (Fsq.queue w).

(** What [processTask] does at the end of a step, from a world [w1]
    that satisfies the invariant: nothing, because the limit is reached
    or nothing waits, or the oldest waiting task starts. *)
Definition dispatch_effect (N M : Z) (w1 w' : World) : Prop :=
  Fsq.processTask w1 = Some w' ∧
  Inv N M w' ∧
  Fsq.tasksById (Fsq.queue w') = Fsq.tasksById (Fsq.queue w1) ∧
  Fsq.taskCount (Fsq.queue w') = Fsq.taskCount (Fsq.queue w1) ∧
  Fsq.env w' = Fsq.env w1 ∧
  Fsq.Name (Fsq.queue w') = Fsq.Name (Fsq.queue w1) ∧
  ((w' = w1 ∧
    (Fsq.maxProcessing (Fsq.queue w1) ≤ Fsq.countProcessing (Fsq.queue w1)
     ∨ buffered w1 = []))
   ∨
   (∃ p t, dispatched w1 w' p t ∧
           Fsq.countProcessing (Fsq.queue w')
           = Fsq.countProcessing (Fsq.queue w1) + 1)).

(** The steps of a queue, by what they write. *)
Inductive step_effect (N M : Z) (w w' : World) : Prop :=
| effect_flag b : w' = with_flag b w → step_effect N M w w'
| effect_refused : w' = w → step_effect N M w w'
| effect_Add a pr id w1 p t0 :
    Fsq.isRunning (Fsq.queue w) = true →
    Inv N M w1 → admission_effect a pr id w w1 p t0 →
    dispatch_effect N M w1 w' → step_effect N M w w'
| effect_go i w1 p t :
    Inv N M w1 → completion_effect w w1 i p t →
    dispatch_effect N M w1 w' → step_effect N M w w'.

End steps.

Arguments admission {value Env} _ _ _ _.
Arguments completion {value Env} _ _.
Arguments admission_effect {value Env} _ _ _ _ _ _ _.
Arguments completion_effect {value Env} _ _ _ _ _.
Arguments dispatch_effect {value Env} _ _ _ _.
Arguments step_effect {value Env} _ _ _ _.

(** ** More invariants of a queue *)

Section more_invariants.

Variables (value Env : Type).

Local Abbreviation task := (Task.task value Env).
Local Abbreviation World := (Fsq.World value Env).

Implicit Types (w : World) (r : taskref) (p : ptr) (t : task).

(** A task waits only while the limit is reached. *)
Definition work_conserving (w : World) : Prop :=
  buffered w = [] ∨
  Fsq.maxProcessing (Fsq.queue w) ≤ Fsq.countProcessing (Fsq.queue w).

(** The tasks of the pool are as [Clean] leaves them. *)
Definition pool_clean (w : World) : Prop :=
  ∀ r, r ∈ Fsq.readyTaskPool (Fsq.queue w) →
       ∃ t, Fsq.deref r (Fsq.heap w) = Some t ∧ Task.Clean t = t.

(** The task at address [p] is the [p + 1]-th allocated: that is its id,
    [tasksById] maps the id to it and holds nothing else, and the counter
    is the number of tasks. *)
Definition ids_in_order (w : World) : Prop :=
  Fsq.taskCount (Fsq.queue w) = Z.of_nat (length (Fsq.heap w)) ∧
  (∀ p t, Fsq.heap w !! p = Some t →
          Task.id t = Z.of_nat p + 1 ∧
          Fsq.tasksById (Fsq.queue w) !! (Z.of_nat p + 1) = Some (Some p)) ∧
  (∀ k r, Fsq.tasksById (Fsq.queue w) !! k = Some r →
          ∃ p, r = Some p ∧ k = Z.of_nat p + 1 ∧
               (p < length (Fsq.heap w))%nat).

(** A step that allocates nothing and keeps the id of every task. *)
Definition ids_kept (w w1 : World) : Prop :=
  Fsq.tasksById (Fsq.queue w1) = Fsq.tasksById (Fsq.queue w) ∧
  Fsq.taskCount (Fsq.queue w1) = Fsq.taskCount (Fsq.queue w) ∧
  length (Fsq.heap w1) = length (Fsq.heap w) ∧
  ∀ p t1, Fsq.heap w1 !! p = Some t1 →
          ∃ t, Fsq.heap w !! p = Some t ∧ Task.id t1 = Task.id t.

End more_invariants.

Arguments work_conserving {value Env} _.
Arguments pool_clean {value Env} _.
Arguments ids_in_order {value Env} _.
Arguments ids_kept {value Env} _ _.

(** ** More example worlds *)

Module MoreExamples.

Import Examples.

(** The world after the [i]-th started goroutine has run to its end. *)
Definition finish (i : nat) (w : Fsq.World unit nat) : Fsq.World unit nat :=
  match Fsq.goroutines w !! i with
  | Some r =>
      default w (Fsq.actionWrapper r
                   (Fsq.set_goroutines (delete i (Fsq.goroutines w)) w))
  | None => w
  end.

(** Capacity 3 and limit 1: the task of "x" has run and is in the pool;
    then "y" is added and takes the same task. *)
Definition x_done : Fsq.World unit nat := finish 0 x_runs.

Definition y_runs : Fsq.World unit nat := add "y" x_done.

(** The buffer of size 2 after [three_in_one_out]. *)
Definition two_in_one_out : RingBuffer.ringBuffer :=
  default (RingBuffer.createRingBuffer 2)
          (rb_run three_in_one_out (RingBuffer.createRingBuffer 2)).

End MoreExamples.

(** * Proofs *)

(** ** Go integers *)

(** [lia] with the two bounds of the development written out. *)
Ltac int_lia :=
  change (2 ^ 62) with 4611686018427387904 in *;
  change (2 ^ 63) with 9223372036854775808 in *;
  lia.

Lemma wrap_id z : GoInt.is_int z → GoInt.wrap z = z.
Proof.
  unfold GoInt.is_int, GoInt.wrap, GoInt.min_int, GoInt.max_int. intros Hz.
  rewrite Z.mod_small; lia.
Qed.

Lemma add_small x y : - 2 ^ 63 ≤ x + y ≤ 2 ^ 63 - 1 → GoInt.add x y = x + y.
Proof. intros. by apply wrap_id. Qed.

Lemma sub_small x y : - 2 ^ 63 ≤ x - y ≤ 2 ^ 63 - 1 → GoInt.sub x y = x - y.
Proof. intros. by apply wrap_id. Qed.

Lemma rem_pos x y : 0 ≤ x → 0 < y → GoInt.rem x y = Some (x `mod` y).
Proof.
  intros Hx Hy. unfold GoInt.rem. destruct (decide (y = 0)) as [->|_]; [lia|].
  by rewrite Z.rem_mod_nonneg by lia.
Qed.

Lemma mod_shift_ne h k s n :
  0 ≤ k < s → s < n → (h + k) `mod` n ≠ (h + s) `mod` n.
Proof.
  intros Hk Hs Heq.
  assert (((h + s) - (h + k)) `mod` n = 0) as H0.
  { rewrite Zminus_mod, Heq, Z.sub_diag. apply Z.mod_0_l. lia. }
  replace (h + s - (h + k)) with (s - k) in H0 by lia.
  rewrite Z.mod_small in H0; lia.
Qed.

Lemma slice_set_in {A} (s : list A) i x :
  0 ≤ i < Z.of_nat (length s) → slice_set s i x = Some (<[Z.to_nat i := x]> s).
Proof. intros. unfold slice_set. by rewrite decide_True. Qed.

Lemma slice_get_in {A} (s : list A) i :
  0 ≤ i → slice_get s i = s !! Z.to_nat i.
Proof. intros. unfold slice_get. by rewrite decide_True. Qed.

(** ** The ring buffer *)

Section ring_buffer.

Import RingBuffer.

Lemma rb_contents_length rb :
  0 ≤ CurrentSize rb → Z.of_nat (length (rb_contents rb)) = CurrentSize rb.
Proof.
  intros. unfold rb_contents. rewrite length_fmap, length_seqZ. lia.
Qed.

Lemma Enqueue_full rb task :
  CurrentSize rb = MaxSize rb → Enqueue rb task = Some (rb, Some errFull).
Proof. intros H. unfold Enqueue. by rewrite decide_True. Qed.

Lemma Enqueue_spec rb task :
  rb_wf rb → CurrentSize rb < MaxSize rb →
  ∃ rb', Enqueue rb task = Some (rb', None) ∧ rb_wf rb' ∧
         rb_contents rb' = rb_contents rb ++ [task] ∧
         CurrentSize rb' = CurrentSize rb + 1 ∧
         MaxSize rb' = MaxSize rb ∧ head rb' = head rb.
Proof.
  intros (HN & Hlen & Hsz & Hfull & Hh & Ht) Hlt.
  assert (0 ≤ (head rb + CurrentSize rb) `mod` MaxSize rb < MaxSize rb)
    as Hmod by (apply Z.mod_pos_bound; lia).
  unfold Enqueue. rewrite decide_False by lia.
  rewrite !add_small by int_lia. rewrite rem_pos by lia. simpl.
  rewrite slice_set_in by lia. simpl.
  eexists. split; [reflexivity|].
  split; [|split; [|done]].
  - unfold rb_wf; simpl. rewrite length_insert.
    repeat split; try lia.
    + case_decide; [lia|]. intros ?%Hfull. lia.
    + case_decide; [done|]. lia.
  - unfold rb_contents; simpl.
    replace (CurrentSize rb + 1) with (Z.of_nat (S (Z.to_nat (CurrentSize rb))))
      by lia.
    rewrite seqZ_S, fmap_app, Z2Nat.id by lia. simpl. f_equal.
    + apply Forall_fmap_ext_1, Forall_seqZ. intros k [Hk1 Hk2].
      unfold rb_slot; simpl. rewrite list_lookup_insert_ne; [done|].
      intros Heq%Z2Nat.inj.
      * by apply (mod_shift_ne (head rb) k (CurrentSize rb) (MaxSize rb)).
      * apply Z.mod_pos_bound; lia.
      * apply Z.mod_pos_bound; lia.
    + unfold rb_slot; simpl. rewrite Z.add_0_l.
      set (m := (head rb + CurrentSize rb) `mod` MaxSize rb) in *.
      rewrite list_lookup_insert_eq by lia. done.
Qed.

Lemma Dequeue_empty rb : CurrentSize rb = 0 → Dequeue rb = Some (rb, None).
Proof. intros H. unfold Dequeue. by rewrite decide_True. Qed.

Lemma Dequeue_spec rb :
  rb_wf rb → 0 < CurrentSize rb →
  ∃ rb' task, Dequeue rb = Some (rb', task) ∧ rb_wf rb' ∧
              rb_contents rb = task :: rb_contents rb' ∧
              CurrentSize rb' = CurrentSize rb - 1 ∧
              MaxSize rb' = MaxSize rb ∧ IsFull rb' = false.
Proof.
  intros (HN & Hlen & Hsz & Hfull & Hh & Ht) Hlt.
  assert (0 ≤ (head rb + 1) `mod` MaxSize rb < MaxSize rb)
    as Hmod by (apply Z.mod_pos_bound; lia).
  destruct (lookup_lt_is_Some_2 (items rb) (Z.to_nat (head rb))) as [x Hx];
    [lia|].
  unfold Dequeue. rewrite decide_False by lia.
  rewrite slice_get_in, Hx by lia. simpl.
  rewrite slice_set_in by lia. simpl.
  rewrite add_small by int_lia. rewrite rem_pos by lia. simpl.
  rewrite sub_small by int_lia.
  eexists _, _. split; [reflexivity|].
  split; [|split; [|done]].
  - unfold rb_wf; simpl. rewrite length_insert.
    repeat split; try lia; done.
  - unfold rb_contents; simpl.
    rewrite (seqZ_cons 0) by lia. simpl. f_equal.
    + unfold rb_slot. rewrite Z.add_0_r, Z.mod_small by lia. by rewrite Hx.
    + replace (Z.succ 0) with (1 + 0) by lia.
      rewrite <- fmap_add_seqZ, <- list_fmap_compose.
      replace (Z.pred (CurrentSize rb)) with (CurrentSize rb - 1) by lia.
      apply Forall_fmap_ext_1, Forall_seqZ. intros k [Hk1 Hk2].
      unfold rb_slot; simpl.
      rewrite Zplus_mod_idemp_l.
      replace (head rb + 1 + k) with (head rb + (1 + k)) by lia.
      rewrite list_lookup_insert_ne; [done|].
      intros Heq%Z2Nat.inj; [|lia|apply Z.mod_pos_bound; lia].
      apply (mod_shift_ne (head rb) 0 (1 + k) (MaxSize rb)); [lia|lia|].
      rewrite Z.add_0_r, Z.mod_small by lia. done.
Qed.

Lemma createRingBuffer_wf n : 1 ≤ n ≤ 2 ^ 62 → rb_wf (createRingBuffer n).
Proof.
  intros Hn. unfold rb_wf, createRingBuffer; simpl.
  rewrite length_replicate. repeat split; try lia; try done.
Qed.

Lemma rb_exec_wf o rb :
  rb_wf rb → ∃ rb', rb_exec o rb = Some rb' ∧ rb_wf rb' ∧
                    MaxSize rb' = MaxSize rb.
Proof.
  intros Hwf. destruct o as [task|]; simpl.
  - destruct (decide (CurrentSize rb = MaxSize rb)) as [Heq|Hne].
    + rewrite Enqueue_full by done. simpl. eauto.
    + destruct (Enqueue_spec rb task Hwf) as (rb' & -> & ? & _ & _ & ? & _).
      { destruct Hwf as (_ & _ & ? & _). lia. }
      simpl. eauto.
  - destruct (decide (CurrentSize rb = 0)) as [Heq|Hne].
    + rewrite Dequeue_empty by done. simpl. eauto.
    + destruct (Dequeue_spec rb Hwf) as (rb' & t & -> & ? & _ & _ & ? & _).
      { destruct Hwf as (_ & _ & ? & _). lia. }
      simpl. eauto.
Qed.

Lemma rb_run_wf ops rb :
  rb_wf rb → ∃ rb', rb_run ops rb = Some rb' ∧ rb_wf rb' ∧
                    MaxSize rb' = MaxSize rb.
Proof.
  revert rb. induction ops as [|o ops IH]; intros rb Hwf; simpl.
  - eauto.
  - destruct (rb_exec_wf o rb Hwf) as (rb1 & -> & Hwf1 & Hmax1). simpl.
    destruct (IH rb1 Hwf1) as (rb' & -> & Hwf' & Hmax'). 
    exists rb'. split; [done|]. split; [done|]. congruence.
Qed.

Lemma createRingBuffer_Init size name M :
  Fsq.items (Fsq.Init size name M)
  = createRingBuffer (if decide (size ≤ 0) then 1 else size).
Proof. done. Qed.

(** C6.  On an empty, well-formed ring buffer of capacity at least 3,
    enqueueing A, B, C and then dequeueing three times succeeds, returns
    A, then B, then C, and leaves the buffer empty. *)
Theorem enqueue_dequeue_fifo rb A B C :
  rb_wf rb → 3 ≤ MaxSize rb → CurrentSize rb = 0 →
  ∃ rb', enqueue3_dequeue3 rb A B C
         = Some (rb', [None; None; None], [A; B; C]) ∧
         CurrentSize rb' = 0 ∧ IsFull rb' = false ∧ rb_contents rb' = [] ∧
         MaxSize rb' = MaxSize rb.
Proof.
  intros Hwf H3 H0. unfold enqueue3_dequeue3.
  assert (rb_contents rb = []) as Hc0.
  { unfold rb_contents. rewrite H0. done. }
  destruct (Enqueue_spec rb A Hwf) as (rb1 & -> & Hwf1 & Hc1 & Hs1 & Hm1 & _);
    [lia|]. simpl.
  destruct (Enqueue_spec rb1 B Hwf1) as (rb2 & -> & Hwf2 & Hc2 & Hs2 & Hm2 & _);
    [lia|]. simpl.
  destruct (Enqueue_spec rb2 C Hwf2) as (rb3 & -> & Hwf3 & Hc3 & Hs3 & Hm3 & _);
    [lia|]. simpl.
  rewrite Hc2, Hc1, Hc0 in Hc3. simpl in Hc3.
  destruct (Dequeue_spec rb3 Hwf3) as (rb4 & x & -> & Hwf4 & Hc4 & Hs4 & Hm4 & _);
    [lia|]. simpl.
  rewrite Hc3 in Hc4. injection Hc4 as <- Hc4.
  destruct (Dequeue_spec rb4 Hwf4) as (rb5 & y & -> & Hwf5 & Hc5 & Hs5 & Hm5 & _);
    [lia|]. simpl.
  rewrite <- Hc4 in Hc5. injection Hc5 as <- Hc5.
  destruct (Dequeue_spec rb5 Hwf5) as (rb6 & z & -> & Hwf6 & Hc6 & Hs6 & Hm6 & Hf6);
    [lia|]. simpl.
  rewrite <- Hc5 in Hc6. injection Hc6 as <- Hc6.
  exists rb6. split; [done|]. split; [lia|]. split; [done|].
  split; [done|]. congruence.
Qed.

(** C7.  Whatever sequence of Enqueue and Dequeue is run on the initial
    empty buffer of capacity N, it runs without a panic and in the buffer
    reached the occupancy is in [0, N], the full flag is set if and only
    if the occupancy is N, and head and tail are in [0, N). *)
Theorem ring_buffer_invariant N ops :
  1 ≤ N ≤ 2 ^ 62 →
  ∃ rb, rb_run ops (createRingBuffer N) = Some rb ∧
        MaxSize rb = N ∧
        0 ≤ CurrentSize rb ≤ N ∧
        (IsFull rb = true ↔ CurrentSize rb = N) ∧
        0 ≤ head rb < N ∧ 0 ≤ tail rb < N.
Proof.
  intros HN.
  destruct (rb_run_wf ops _ (createRingBuffer_wf N HN))
    as (rb & Hrun & Hwf & Hmax).
  simpl in Hmax. exists rb. split; [done|]. split; [done|].
  destruct Hwf as (_ & _ & Hsz & Hfull & Hh & Ht).
  rewrite Hmax in *. done.
Qed.

End ring_buffer.

(** ** The queue *)

Section queue.

Variables (value Env : Type).

Local Abbreviation task := (Task.task value Env).
Local Abbreviation World := (Fsq.World value Env).

Implicit Types (w : World) (q : Fsq.FixedSizeQueue) (h : list task)
  (r : taskref) (p : ptr) (t : task).

Lemma deref_Some r h t :
  Fsq.deref r h = Some t ↔ ∃ p, r = Some p ∧ h !! p = Some t.
Proof.
  unfold Fsq.deref. destruct r as [p|]; simpl.
  - split; [eauto|]. by intros (? & [= <-] & ?).
  - split; [done|]. by intros (? & ? & ?).
Qed.

Lemma deref_at p h : Fsq.deref (Some p) h = h !! p.
Proof. done. Qed.

Lemma deref_insert_ne h p t r :
  r ≠ Some p → Fsq.deref r (<[p := t]> h) = Fsq.deref r h.
Proof.
  intros Hne. destruct r as [p'|]; [|done]. rewrite !deref_at.
  apply list_lookup_insert_ne. congruence.
Qed.

Lemma deref_insert_eq h p t t0 :
  h !! p = Some t0 → Fsq.deref (Some p) (<[p := t]> h) = Some t.
Proof.
  intros H. rewrite deref_at. apply list_lookup_insert_eq.
  by eapply lookup_lt_Some.
Qed.

Lemma update_Some h p t (f : task → task) :
  h !! p = Some t → Fsq.update (Some p) f h = Some (<[p := f t]> h).
Proof. intros H. unfold Fsq.update. simpl. by rewrite H. Qed.

Lemma set_items_id q : Fsq.set_items (Fsq.items q) q = q.
Proof. by destruct q. Qed.

Lemma world_eta w :
  {| Fsq.queue := Fsq.queue w; Fsq.heap := Fsq.heap w;
     Fsq.goroutines := Fsq.goroutines w; Fsq.env := Fsq.env w |} = w.
Proof. by destruct w. Qed.

(** Two tasks in different states are different tasks. *)
Lemma in_state_ne w s1 s2 r1 r2 :
  in_state w s1 r1 → in_state w s2 r2 → s1 ≠ s2 → r1 ≠ r2.
Proof. intros (t1 & Hd1 & <-) (t2 & Hd2 & <-) Hne Heq. subst. congruence. Qed.

Lemma inv_buf_state N M w r :
  Inv N M w → r ∈ buffered w → in_state w Task.waiting r.
Proof.
  intros HI Hr. destruct (inv_buf _ _ _ _ _ HI r Hr) as (t & ? & ? & _).
  by exists t.
Qed.

(** *** Dispatch *)

Lemma processTask_refuses w :
  Fsq.maxProcessing (Fsq.queue w) ≤ Fsq.countProcessing (Fsq.queue w) →
  Fsq.processTask w = Some w.
Proof. intros H. unfold Fsq.processTask. by rewrite decide_True. Qed.

Lemma processTask_spec N M w :
  Inv N M w →
  ∃ w', Fsq.processTask w = Some w' ∧ Inv N M w' ∧
        (w' = w ∨ ∃ p t, dispatched w w' p t).
Proof.
  intros HI.
  destruct (decide (Fsq.maxProcessing (Fsq.queue w)
                    ≤ Fsq.countProcessing (Fsq.queue w))) as [Hge|Hlt].
  { exists w. rewrite processTask_refuses by done. auto. }
  pose proof (inv_rb _ _ _ _ _ HI) as Hwf.
  unfold Fsq.processTask. rewrite decide_False by done.
  destruct (decide (RingBuffer.CurrentSize (Fsq.items (Fsq.queue w)) = 0))
    as [H0|H0].
  { rewrite Dequeue_empty by done. simpl.
    rewrite set_items_id, world_eta. eauto. }
  destruct (Dequeue_spec _ Hwf) as (rb' & r & -> & Hwf' & Hcont & _ & HN' & Hfull').
  { destruct Hwf as (_ & _ & ? & _). lia. }
  simpl.
  assert (r ∈ buffered w) as Hr by (unfold buffered; rewrite Hcont; left).
  destruct (inv_buf _ _ _ _ _ HI r Hr) as (t & Hderef & Hst & Hnb & Hidx).
  apply deref_Some in Hderef as (p & -> & Hp).
  simpl. rewrite deref_at, Hp. simpl.
  rewrite (update_Some _ _ _ _ Hp). simpl.
  pose proof (inv_count _ _ _ _ _ HI) as Hcount.
  pose proof (inv_M _ _ _ _ _ HI) as HM.
  pose proof (inv_M_int _ _ _ _ _ HI) as HMi.
  pose proof (inv_buf_nodup _ _ _ _ _ HI) as Hnd.
  unfold buffered in Hnd. rewrite Hcont in Hnd.
  apply NoDup_cons in Hnd as [Hp_notin Hnd'].
  rewrite add_small by (unfold GoInt.max_int in HMi; int_lia).
  eexists. split; [reflexivity|]. split.
  - constructor; simpl; unfold buffered; simpl.
    + done.
    + rewrite HN'. apply HI.
    + done.
    + done.
    + rewrite length_app. simpl. lia.
    + lia.
    + done.
    + apply HI.
    + apply NoDup_app. split; [apply HI|]. split; [|apply NoDup_singleton].
      intros r' Hr' ->%list_elem_of_singleton.
      eapply (in_state_ne w Task.processing Task.waiting); [| |done|done].
      * by eapply inv_run.
      * by eapply inv_buf_state.
    + intros r' Hr'.
      assert (r' ≠ Some p) as Hne by (by intros ->).
      destruct (inv_buf _ _ _ _ _ HI r') as (t' & Hd' & Hs' & Hb' & Hi').
      { unfold buffered. rewrite Hcont. by right. }
      exists t'. rewrite deref_insert_ne by done.
      split; [done|]. split; [done|]. split; [done|].
      rewrite lookup_delete_ne; [done|]. intros Heq. congruence.
    + intros id r' [Hid Hlk]%lookup_delete_Some.
      destruct (inv_wait _ _ _ _ _ HI id r' Hlk) as (Hin & t' & Hd' & He').
      unfold buffered in Hin. rewrite Hcont in Hin.
      apply elem_of_cons in Hin as [->|Hin].
      { rewrite deref_at in Hd'. congruence. }
      split; [done|]. exists t'. rewrite deref_insert_ne; [done|].
      by intros ->.
    + intros r' Hr'. destruct (inv_pool _ _ _ _ _ HI r' Hr') as (t' & Hd' & Hs').
      exists t'. simpl. split; [|done]. rewrite deref_insert_ne; [done|].
      eapply (in_state_ne w Task.ready Task.waiting); [by eexists|by eexists|done].
    + intros r' [Hr'| ->%list_elem_of_singleton]%elem_of_app.
      * destruct (inv_run _ _ _ _ _ HI r' Hr') as (t' & Hd' & Hs').
        exists t'. simpl. split; [|done]. rewrite deref_insert_ne; [done|].
        eapply (in_state_ne w Task.processing Task.waiting);
          [by eexists|by eexists|done].
      * eexists. simpl. split; [by eapply deref_insert_eq|done].
    + intros p'. rewrite length_insert. intros Hp'.
      destruct (inv_cover _ _ _ _ _ HI p' Hp') as [Hin|[Hin|Hin]].
      * unfold buffered in Hin. rewrite Hcont in Hin.
        apply elem_of_cons in Hin as [[= ->]|Hin]; [|by left].
        right; right. apply elem_of_app. right. by left.
      * by right; left.
      * right; right. apply elem_of_app. by left.
  - right. exists p, t. unfold dispatched, buffered; simpl.
    repeat split; try done. lia.
Qed.

(** *** Admission *)

Lemma isValidId_blank q id :
  blank id → Fsq.isValidId q id = (false, Some Fsq.errInvalidId).
Proof. intros H. unfold Fsq.isValidId. by rewrite decide_True. Qed.

Lemma isValidId_duplicate q id :
  ¬ blank id → is_Some (Fsq.waitingTasksByExternalId q !! id) →
  Fsq.isValidId q id = (false, Some Fsq.errDuplicateId).
Proof.
  intros Hb [r Hr]. unfold Fsq.isValidId.
  rewrite decide_False by done. by rewrite Hr.
Qed.

Lemma isValidId_ok q id :
  ¬ blank id → Fsq.waitingTasksByExternalId q !! id = None →
  Fsq.isValidId q id = (true, None).
Proof.
  intros Hb Hr. unfold Fsq.isValidId.
  rewrite decide_False by done. by rewrite Hr.
Qed.

Lemma popTask_snoc (l : list taskref) r : Fsq.popTask (l ++ [r]) = (r, l).
Proof.
  unfold Fsq.popTask. rewrite length_app. simpl.
  rewrite decide_False by lia.
  replace (length l + 1 - 1)%nat with (length l) by lia.
  by rewrite list_lookup_middle, take_app_length.
Qed.

Lemma update_insert h p t0 t (f : task → task) :
  h !! p = Some t0 →
  Fsq.update (Some p) f (<[p := t]> h) = Some (<[p := f t]> h).
Proof.
  intros H. unfold Fsq.update. simpl.
  rewrite list_lookup_insert_eq by (by eapply lookup_lt_Some). simpl.
  by rewrite list_insert_insert_eq.
Qed.

Lemma fillAndEnqueue_spec a pr id p t q h rb' :
  h !! p = Some t →
  RingBuffer.Enqueue (Fsq.items q) (Some p) = Some (rb', None) →
  Fsq.fillAndEnqueue a pr id (Some p) q h =
  Some (Fsq.set_items rb'
          (Fsq.set_waitingTasksByExternalId
             (<[id := Some p]> (Fsq.waitingTasksByExternalId q)) q),
        <[p := filled a pr id t]> h).
Proof.
  intros Hp Henq. unfold Fsq.fillAndEnqueue.
  rewrite (update_Some _ _ _ _ Hp). simpl.
  do 3 (rewrite (update_insert _ _ _ _ _ Hp); simpl).
  by rewrite Henq.
Qed.

(** The world after an admission satisfies the invariant again: [p] is
    the task accepted, out of the pool or new. *)
Lemma Inv_admission N M w w1 p t' id :
  Inv N M w →
  rb_wf (Fsq.items (Fsq.queue w1)) →
  RingBuffer.MaxSize (Fsq.items (Fsq.queue w1)) = N →
  buffered w1 = buffered w ++ [Some p] →
  Fsq.waitingTasksByExternalId (Fsq.queue w1) =
    <[id := Some p]> (Fsq.waitingTasksByExternalId (Fsq.queue w)) →
  Fsq.waitingTasksByExternalId (Fsq.queue w) !! id = None →
  ¬ blank id →
  Fsq.countProcessing (Fsq.queue w1) = Fsq.countProcessing (Fsq.queue w) →
  Fsq.maxProcessing (Fsq.queue w1) = Fsq.maxProcessing (Fsq.queue w) →
  Fsq.goroutines w1 = Fsq.goroutines w →
  (∀ r t, r ≠ Some p → Fsq.deref r (Fsq.heap w) = Some t →
          Fsq.deref r (Fsq.heap w1) = Some t) →
  Fsq.deref (Some p) (Fsq.heap w1) = Some t' →
  Task.state t' = Task.waiting →
  Task.externalId t' = id →
  (∀ p', (p' < length (Fsq.heap w1))%nat →
         p' = p ∨ (p' < length (Fsq.heap w))%nat) →
  Some p ∉ buffered w →
  Some p ∉ Fsq.goroutines w →
  Some p ∉ Fsq.readyTaskPool (Fsq.queue w1) →
  NoDup (Fsq.readyTaskPool (Fsq.queue w1)) →
  (∀ r, r ∈ Fsq.readyTaskPool (Fsq.queue w1) →
        r ∈ Fsq.readyTaskPool (Fsq.queue w)) →
  (∀ r, r ∈ Fsq.readyTaskPool (Fsq.queue w) →
        r ∈ Fsq.readyTaskPool (Fsq.queue w1) ∨ r = Some p) →
  Inv N M w1.
Proof.
  intros HI Hwf HN Hbuf Hwait Hfresh Hnb Hcnt Hmax Hgo Hkeep Hnew Hst Hid
    Hlen HpB HpR HpP Hnd Hsub Hsup.
  constructor.
  - done.
  - done.
  - rewrite Hmax. apply HI.
  - apply HI.
  - rewrite Hcnt, Hgo. apply HI.
  - rewrite Hcnt. apply HI.
  - rewrite Hbuf. apply NoDup_app. split; [apply HI|].
    split; [|apply NoDup_singleton].
    by intros r Hr ->%list_elem_of_singleton.
  - done.
  - rewrite Hgo. apply HI.
  - intros r. rewrite Hbuf. intros [Hr| ->%list_elem_of_singleton]%elem_of_app.
    + destruct (inv_buf _ _ _ _ _ HI r Hr) as (t & Hd & Hs & Hb & Hi).
      exists t. split; [|split; [done|split; [done|]]].
      * apply Hkeep; [|done]. by intros ->.
      * rewrite Hwait, lookup_insert_ne; [done|].
        intros Heq. rewrite <- Heq in Hi. congruence.
    + exists t'. rewrite Hid, Hst. split; [done|]. split; [done|].
      split; [done|]. by rewrite Hwait, lookup_insert_eq.
  - intros id' r. rewrite Hwait, Hbuf.
    intros [[<- <-]|[Hne Hlk]]%lookup_insert_Some.
    + split; [apply elem_of_app; right; by left|]. by exists t'.
    + destruct (inv_wait _ _ _ _ _ HI id' r Hlk) as (Hin & t & Hd & He).
      split; [apply elem_of_app; by left|]. exists t. split; [|done].
      apply Hkeep; [|done]. by intros ->.
  - intros r Hr. destruct (inv_pool _ _ _ _ _ HI r (Hsub r Hr)) as (t & Hd & Hs).
    exists t. split; [|done]. apply Hkeep; [|done]. by intros ->.
  - intros r. rewrite Hgo. intros Hr.
    destruct (inv_run _ _ _ _ _ HI r Hr) as (t & Hd & Hs).
    exists t. split; [|done]. apply Hkeep; [|done]. by intros ->.
  - intros p' Hp'. rewrite Hbuf, Hgo.
    destruct (Hlen p' Hp') as [->|Hold].
    { left. apply elem_of_app. right. by left. }
    destruct (inv_cover _ _ _ _ _ HI p' Hold) as [Hin|[Hin|Hin]].
    + left. apply elem_of_app. by left.
    + destruct (Hsup _ Hin) as [?|[= ->]]; [by right; left|].
      left. apply elem_of_app. right. by left.
    + by right; right.
Qed.

Lemma Add_succeeds N M w a pr id :
  Inv N M w →
  Fsq.isRunning (Fsq.queue w) = true →
  RingBuffer.IsFull (Fsq.items (Fsq.queue w)) = false →
  ¬ blank id →
  Fsq.waitingTasksByExternalId (Fsq.queue w) !! id = None →
  ∃ w1 w' p,
    Fsq.Add a pr id w = Some (w', None) ∧
    Inv N M w1 ∧ accepted w w1 id p ∧
    Fsq.processTask w1 = Some w' ∧ Inv N M w' ∧
    (w' = w1 ∨ ∃ p' t, dispatched w1 w' p' t).
Proof.
  intros HI Hrun Hfull Hnb Hfresh.
  pose proof (inv_rb _ _ _ _ _ HI) as Hwf.
  assert (RingBuffer.CurrentSize (Fsq.items (Fsq.queue w))
          < RingBuffer.MaxSize (Fsq.items (Fsq.queue w))) as Hroom.
  { destruct Hwf as (_ & _ & Hsz & Hf & _).
    destruct (decide (RingBuffer.CurrentSize (Fsq.items (Fsq.queue w))
                      = RingBuffer.MaxSize (Fsq.items (Fsq.queue w))))
      as [Heq|Hne]; [|lia].
    apply Hf in Heq. congruence. }
  unfold Fsq.Add. rewrite Hrun, Hfull, isValidId_ok by done. simpl.
  unfold Fsq.obtainTask.
  destruct (decide (0 < length (Fsq.readyTaskPool (Fsq.queue w)))%nat)
    as [Hpool|Hpool].
  - (* a task of the pool *)
    destruct (exists_last (l := Fsq.readyTaskPool (Fsq.queue w)))
      as (pool' & r & Hpool_eq).
    { intros Hnil. rewrite Hnil in Hpool. simpl in Hpool. lia. }
    rewrite Hpool_eq, popTask_snoc. simpl.
    assert (r ∈ Fsq.readyTaskPool (Fsq.queue w)) as Hr.
    { rewrite Hpool_eq. apply elem_of_app. right. by left. }
    pose proof (inv_pool _ _ _ _ _ HI r Hr) as Hready.
    destruct (Hready) as (t & Hd & Hs).
    apply deref_Some in Hd as (p & -> & Hp).
    destruct (Enqueue_spec _ (Some p) Hwf Hroom)
      as (rb' & Henq & Hwf' & Hcont & Hsize & HN' & _).
    erewrite fillAndEnqueue_spec; [|done|exact Henq]. simpl.
    set (w1 := {| Fsq.queue := _; Fsq.heap := _ |}).
    assert (Inv N M w1) as HI1.
    { pose proof (inv_pool_nodup _ _ _ _ _ HI) as Hnd.
      rewrite Hpool_eq in Hnd. apply NoDup_app in Hnd as (Hnd' & Hdisj & _).
      eapply (Inv_admission N M w w1 p (filled a pr id t) id); subst w1; simpl;
        try done.
      - rewrite HN'. apply HI.
      - intros r' t' Hne Hd'. by rewrite deref_insert_ne.
      - by eapply deref_insert_eq.
      - intros p'. rewrite length_insert. auto.
      - intros Hin.
        by eapply (in_state_ne w Task.waiting Task.ready);
          [eapply inv_buf_state| | |].
      - intros Hin.
        by eapply (in_state_ne w Task.processing Task.ready);
          [eapply inv_run| | |].
      - intros Hin. eapply Hdisj; [done|]. by left.
      - intros r' Hr'. rewrite Hpool_eq. apply elem_of_app. by left.
      - intros r'. rewrite Hpool_eq.
        intros [?| ->%list_elem_of_singleton]%elem_of_app; auto. }
    destruct (processTask_spec N M w1 HI1) as (w' & Hpt & HI' & Hdisp).
    exists w1, w', p. rewrite Hpt. simpl.
    split; [done|]. split; [done|]. split; [|done].
    subst w1. unfold accepted, buffered; simpl.
    repeat split; try done.
    exists (filled a pr id t). split; [|done].
    apply list_lookup_insert_eq. by eapply lookup_lt_Some.
  - (* a new task *)
    assert (Fsq.readyTaskPool (Fsq.queue w) = []) as Hnil.
    { destruct (Fsq.readyTaskPool (Fsq.queue w)); [done|]. simpl in Hpool. lia. }
    set (p := length (Fsq.heap w)).
    set (c := GoInt.add (Fsq.taskCount (Fsq.queue w)) 1).
    assert ((Fsq.heap w ++ [Task.zero]) !! p = Some (Task.zero (value:=value) (Env:=Env)))
      as Hzero by (by apply list_lookup_middle).
    rewrite (update_Some _ _ _ _ Hzero). simpl.
    rewrite (deref_insert_eq _ _ _ _ Hzero). simpl.
    destruct (Enqueue_spec _ (Some p) Hwf Hroom)
      as (rb' & Henq & Hwf' & Hcont & Hsize & HN' & _).
    assert (<[p := Task.SetId c Task.zero]> (Fsq.heap w ++ [Task.zero]) !! p
            = Some (Task.SetId c (Task.zero (value:=value) (Env:=Env)))) as Hp.
    { apply list_lookup_insert_eq. by eapply lookup_lt_Some. }
    erewrite fillAndEnqueue_spec; [|exact Hp|exact Henq]. simpl.
    set (w1 := {| Fsq.queue := _; Fsq.heap := _ |}).
    assert (∀ r, is_Some (Fsq.deref r (Fsq.heap w)) → r ≠ Some p) as Hvalid.
    { intros r [t Ht] ->. rewrite deref_at in Ht.
      apply lookup_lt_Some in Ht. subst p. lia. }
    assert (Inv N M w1) as HI1.
    { eapply (Inv_admission N M w w1 p
                (filled a pr id (Task.SetId c Task.zero)) id);
        subst w1; simpl; try done.
      - rewrite HN'. apply HI.
      - intros r' t' Hne Hd'. rewrite !deref_insert_ne by done.
        apply deref_Some in Hd' as (p' & -> & Hp'). rewrite deref_at.
        by apply lookup_app_l_Some.
      - by eapply deref_insert_eq.
      - intros p'. rewrite !length_insert, length_app. simpl.
        subst p. lia.
      - intros Hin. eapply Hvalid; [|done].
        destruct (inv_buf_state _ _ _ _ HI Hin) as (? & ? & _). eauto.
      - intros Hin. eapply Hvalid; [|done].
        destruct (inv_run _ _ _ _ _ HI _ Hin) as (? & ? & _). eauto.
      - rewrite Hnil. apply not_elem_of_nil.
      - apply HI.
      - auto. }
    destruct (processTask_spec N M w1 HI1) as (w' & Hpt & HI' & Hdisp).
    exists w1, w', p. rewrite Hpt. simpl.
    split; [done|]. split; [done|]. split; [|done].
    subst w1. unfold accepted, buffered; simpl.
    repeat split; try done.
    exists (filled a pr id (Task.SetId c Task.zero)). split; [|done].
    apply list_lookup_insert_eq. by eapply lookup_lt_Some.
Qed.

(** *** Completion *)

Lemma elem_of_delete_NoDup {A} (l : list A) i x y :
  NoDup l → l !! i = Some x → y ∈ delete i l ↔ y ∈ l ∧ y ≠ x.
Proof.
  intros Hnd Hi. rewrite delete_take_drop.
  assert (l = take i l ++ x :: drop (S i) l) as Hl
    by (symmetry; by apply take_drop_middle).
  remember (take i l) as l1 eqn:E1. remember (drop (S i) l) as l2 eqn:E2.
  clear E1 E2. subst l.
  apply NoDup_app in Hnd as (_ & Hdisj & [Hx _]%NoDup_cons).
  rewrite !elem_of_app, elem_of_cons. split.
  - intros [Hy|Hy].
    + split; [by left|]. intros ->. eapply Hdisj; [done|]. by left.
    + split; [by right; right|]. by intros ->.
  - intros [[Hy|[->|Hy]] Hne]; [by left|done|by right].
Qed.

Lemma NoDup_delete {A} (l : list A) i : NoDup l → NoDup (delete i l).
Proof. intros H. eapply sublist_NoDup; [done|apply sublist_delete]. Qed.

Lemma actionWrapper_spec N M w i r :
  Inv N M w → Fsq.goroutines w !! i = Some r →
  ∃ w1 w' p,
    Fsq.actionWrapper r (Fsq.set_goroutines (delete i (Fsq.goroutines w)) w)
    = Some w' ∧
    Inv N M w1 ∧ finished w w1 i p ∧
    Fsq.processTask w1 = Some w' ∧ Inv N M w' ∧
    (w' = w1 ∨ ∃ p' t, dispatched w1 w' p' t).
Proof.
  intros HI Hi.
  assert (r ∈ Fsq.goroutines w) as Hr by (by eapply list_elem_of_lookup_2).
  pose proof (inv_run _ _ _ _ _ HI r Hr) as Hproc.
  destruct Hproc as (t & Hd & Hs).
  pose proof Hd as Hd'. apply deref_Some in Hd' as (p & -> & Hp).
  unfold Fsq.actionWrapper. simpl. rewrite Hd. simpl.
  destruct (Task.CallAction t (Fsq.env w)) as [e err].
  rewrite (update_Some _ _ _ _ Hp). simpl.
  pose proof (inv_count _ _ _ _ _ HI) as Hcount.
  pose proof (inv_bound _ _ _ _ _ HI) as Hbound.
  pose proof (inv_M_int _ _ _ _ _ HI) as HMi.
  pose proof (lookup_lt_Some _ _ _ Hi) as Hlen.
  rewrite sub_small by (unfold GoInt.max_int in HMi; int_lia).
  set (w1 := {| Fsq.queue := _; Fsq.heap := _ |}).
  assert (Inv N M w1) as HI1.
  { assert (∀ r' s, in_state w s r' → s ≠ Task.processing →
                    Fsq.deref r' (Fsq.heap w1) = Fsq.deref r' (Fsq.heap w))
      as Hkeep.
    { intros r' s Hin Hne. subst w1; simpl. apply deref_insert_ne.
      eapply (in_state_ne w s Task.processing); [done|by exists t|done]. }
    constructor; subst w1; simpl; unfold buffered; simpl.
    - apply HI.
    - apply HI.
    - apply HI.
    - done.
    - rewrite length_delete by eauto. lia.
    - lia.
    - apply HI.
    - apply NoDup_app. split; [apply HI|]. split; [|apply NoDup_singleton].
      intros r' Hr' ->%list_elem_of_singleton.
      eapply (in_state_ne w Task.ready Task.processing); [| |done|done].
      + by eapply inv_pool.
      + by exists t.
    - apply NoDup_delete, HI.
    - intros r' Hr'.
      destruct (inv_buf _ _ _ _ _ HI r' Hr') as (t' & Hd' & Hs' & Hb' & Hi').
      exists t'. split; [|done].
      rewrite <- Hd'. apply (Hkeep r' Task.waiting); [by exists t'|done].
    - intros id r' Hlk.
      destruct (inv_wait _ _ _ _ _ HI id r' Hlk) as (Hin & t' & Hd' & He').
      split; [done|]. exists t'. split; [|done].
      rewrite <- Hd'. eapply (Hkeep r' Task.waiting); [|done].
      by eapply inv_buf_state.
    - intros r' [Hr'| ->%list_elem_of_singleton]%elem_of_app.
      + destruct (inv_pool _ _ _ _ _ HI r' Hr') as (t' & Hd' & Hs').
        exists t'. simpl. split; [|done].
        rewrite <- Hd'. apply (Hkeep r' Task.ready); [by exists t'|done].
      + eexists. simpl. split; [by eapply deref_insert_eq|done].
    - intros r' [Hr' Hne]%(elem_of_delete_NoDup _ _ (Some p));
        [|apply HI|done].
      destruct (inv_run _ _ _ _ _ HI r' Hr') as (t' & Hd' & Hs').
      exists t'. simpl. split; [|done]. by rewrite deref_insert_ne.
    - intros p'. rewrite length_insert. intros Hp'.
      destruct (inv_cover _ _ _ _ _ HI p' Hp') as [Hin|[Hin|Hin]].
      + by left.
      + right; left. apply elem_of_app. by left.
      + destruct (decide (p' = p)) as [->|Hne].
        * right; left. apply elem_of_app. right. by left.
        * right; right.
          apply (elem_of_delete_NoDup _ _ (Some p)); [apply HI|done|].
          split; [done|congruence]. }
  destruct (processTask_spec N M w1 HI1) as (w' & Hpt & HI' & Hdisp).
  exists w1, w', p. split; [done|]. split; [done|]. split; [|done].
  subst w1. unfold finished, buffered; simpl. repeat split; done.
Qed.

(** *** Reachable worlds *)

Lemma Inv_init size name M e :
  size ≤ 2 ^ 62 → M ≤ GoInt.max_int →
  Inv (RingBuffer.MaxSize (Fsq.items (Fsq.Init size name M))) M
      (Fsq.init_world size name M e : World).
Proof.
  intros Hsize HM.
  constructor; simpl; unfold buffered, rb_contents; simpl;
    try done; try apply NoDup_nil_2; try (by intros ? ?%elem_of_nil).
  - unfold rb_wf; simpl. rewrite length_replicate.
    case_decide; repeat split; try int_lia; done.
  - lia.
  - intros p Hp. lia.
Qed.

Lemma Inv_set_isRunning N M w b :
  Inv N M w → Inv N M (Fsq.set_queue (Fsq.set_isRunning b (Fsq.queue w)) w).
Proof. intros HI. constructor; try apply HI. Qed.

Lemma step_Inv N M w w' : Inv N M w → Fsq.step w w' → Inv N M w'.
Proof.
  intros HI Hstep. destruct Hstep as [w|w|w a pr id w' err HAdd|w i r w' Hi Hgo].
  - by apply Inv_set_isRunning.
  - by apply Inv_set_isRunning.
  - revert HAdd. unfold Fsq.Add.
    destruct (Fsq.isRunning (Fsq.queue w)) eqn:Hrun; simpl;
      [|by intros [= <- <-]].
    destruct (RingBuffer.IsFull (Fsq.items (Fsq.queue w))) eqn:Hfull;
      [by intros [= <- <-]|].
    destruct (decide (blank id)) as [Hb|Hb].
    { rewrite isValidId_blank by done. simpl. by intros [= <- <-]. }
    destruct (Fsq.waitingTasksByExternalId (Fsq.queue w) !! id) eqn:Hlk.
    { rewrite isValidId_duplicate by eauto. simpl. by intros [= <- <-]. }
    intros HAdd.
    destruct (Add_succeeds N M w a pr id HI Hrun Hfull Hb Hlk)
      as (w1 & w2 & p & HAdd' & _ & _ & _ & HI2 & _).
    unfold Fsq.Add in HAdd'. rewrite Hrun, Hfull in HAdd'. simpl in HAdd'.
    rewrite HAdd' in HAdd. by injection HAdd as <- <-.
  - destruct (actionWrapper_spec N M w i r HI Hi)
      as (w1 & w2 & p & Hgo' & _ & _ & _ & HI2 & _).
    rewrite Hgo' in Hgo. by injection Hgo as <-.
Qed.

Lemma reachable_Inv size name M w :
  size ≤ 2 ^ 62 → M ≤ GoInt.max_int →
  Fsq.reachable size name M w →
  Inv (RingBuffer.MaxSize (Fsq.items (Fsq.Init size name M))) M w.
Proof.
  intros Hsize HM Hreach. induction Hreach as [e|w w' _ IH Hstep].
  - by apply Inv_init.
  - by eapply step_Inv.
Qed.

End queue.

(** ** The claims on tasks and on a single call *)

Section calls.

Variables (value Env : Type).

Local Abbreviation task := (Task.task value Env).
Local Abbreviation World := (Fsq.World value Env).

Implicit Types (w : World) (t : task).

(** C8.  [CallAction] returns the InvalidTaskState error and leaves the
    caller's world as it is, calling nothing, when the action or the
    params are nil; otherwise its result is the result of the action on
    the params, as it is: nil, or the action's own error.  So it returns
    the InvalidTaskState error with both set only when the action itself
    returned an error of that text. *)
Theorem CallAction_spec t (e : Env) :
  ((Task.action t = None ∨ Task.params t = None) →
   Task.CallAction t e = (e, Some Task.errInvalidTaskState)) ∧
  (∀ f p, Task.action t = Some f → Task.params t = Some p →
          Task.CallAction t e = f p e) ∧
  (∀ f p e', Task.action t = Some f → Task.params t = Some p →
             Task.CallAction t e = (e', Some Task.errInvalidTaskState) →
             f p e = (e', Some Task.errInvalidTaskState)).
Proof.
  unfold Task.CallAction. split; [|split].
  - intros [-> | ->]; [done|]. by destruct (Task.action t).
  - by intros f p -> ->.
  - by intros f p e' -> ->.
Qed.

(** C9.  [Init] with a size below 1 builds a buffer of capacity 1, and
    of capacity [size] otherwise; the queue it returns is stopped, its
    buffer, its two indexes and its pool are empty and its counters are
    zero. *)
Theorem Init_spec size name maxProcessCount :
  let q := Fsq.Init size name maxProcessCount in
  (size < 1 → RingBuffer.MaxSize (Fsq.items q) = 1) ∧
  (1 ≤ size → RingBuffer.MaxSize (Fsq.items q) = size) ∧
  Fsq.isRunning q = false ∧ Fsq.IsRunning q = false ∧
  RingBuffer.CurrentSize (Fsq.items q) = 0 ∧
  RingBuffer.IsFull (Fsq.items q) = false ∧
  RingBuffer.items (Fsq.items q)
  = replicate (Z.to_nat (RingBuffer.MaxSize (Fsq.items q))) None ∧
  rb_contents (Fsq.items q) = [] ∧
  RingBuffer.head (Fsq.items q) = 0 ∧ RingBuffer.tail (Fsq.items q) = 0 ∧
  Fsq.tasksById q = ∅ ∧ Fsq.waitingTasksByExternalId q = ∅ ∧
  Fsq.readyTaskPool q = [] ∧
  Fsq.countProcessing q = 0 ∧ Fsq.taskCount q = 0 ∧
  Fsq.Name q = name ∧ Fsq.maxProcessing q = maxProcessCount.
Proof.
  simpl. split; [|split].
  - intros. by rewrite decide_True by lia.
  - intros. by rewrite decide_False by lia.
  - repeat split; done.
Qed.

(** C5.  On a running queue whose buffer has its full flag set, [Add]
    fails with the CapacityExceeded error and the world after the call
    is the world before it: buffer, indexes, pool, counters and tasks. *)
Theorem Add_full_unchanged w a pr id :
  Fsq.isRunning (Fsq.queue w) = true →
  RingBuffer.IsFull (Fsq.items (Fsq.queue w)) = true →
  Fsq.Add a pr id w
  = Some (w, Some (Fsq.errNoCapacity (Fsq.Name (Fsq.queue w)))).
Proof. intros Hrun Hfull. unfold Fsq.Add. by rewrite Hrun, Hfull. Qed.

(** C2, amended.  [Add] with an id that trimming leaves empty always
    fails and changes nothing; the error is InvalidId when the queue is
    running and its buffer is not full, NotRunning when the queue is
    stopped, and CapacityExceeded when it is running with a full
    buffer. *)
Theorem Add_blank_id w a pr id :
  blank id →
  Fsq.Add a pr id w
  = Some (w, Some (if Fsq.isRunning (Fsq.queue w) then
                     if RingBuffer.IsFull (Fsq.items (Fsq.queue w))
                     then Fsq.errNoCapacity (Fsq.Name (Fsq.queue w))
                     else Fsq.errInvalidId
                   else Fsq.errNotRunning (Fsq.Name (Fsq.queue w)))).
Proof.
  intros Hb. unfold Fsq.Add.
  destruct (Fsq.isRunning (Fsq.queue w)); simpl; [|done].
  destruct (RingBuffer.IsFull (Fsq.items (Fsq.queue w))); [done|].
  by rewrite isValidId_blank.
Qed.

End calls.

(** ** The claims on the worlds a queue reaches *)

Section reachability.

Variables (value Env : Type).

Local Abbreviation task := (Task.task value Env).
Local Abbreviation World := (Fsq.World value Env).

Implicit Types (w : World) (t : task) (r : taskref) (p : ptr).

(** The tasks in state Processing are the tasks of the started
    goroutines. *)
Lemma processing_goroutines N M w :
  Inv N M w →
  Some <$> tasks_in_state w Task.processing ≡ₚ Fsq.goroutines w.
Proof.
  intros HI. apply NoDup_Permutation.
  - apply NoDup_fmap_2; [apply _|]. apply NoDup_filter, NoDup_seq.
  - apply HI.
  - intros r. unfold tasks_in_state.
    rewrite list_elem_of_fmap. setoid_rewrite list_elem_of_filter.
    setoid_rewrite elem_of_seq. split.
    + intros (p & -> & Hst & _ & Hp). simpl in Hp.
      destruct (Fsq.heap w !! p) as [t|] eqn:Ht; [|done].
      injection Hst as Hst.
      destruct (inv_cover _ _ _ _ _ HI p Hp) as [Hin|[Hin|Hin]]; [| |done].
      * destruct (inv_buf_state _ _ _ _ _ _ HI Hin) as (t' & Hd & Hs).
        rewrite deref_at in Hd. assert (t' = t) as -> by congruence.
        rewrite Hs in Hst. done.
      * destruct (inv_pool _ _ _ _ _ HI _ Hin) as (t' & Hd & Hs).
        rewrite deref_at in Hd. assert (t' = t) as -> by congruence.
        rewrite Hs in Hst. done.
    + intros Hin. destruct (inv_run _ _ _ _ _ HI _ Hin) as (t & Hd & Hs).
      apply deref_Some in Hd as (p & -> & Hp).
      exists p. split; [done|]. rewrite Hp. simpl. split; [congruence|].
      apply lookup_lt_Some in Hp. lia.
Qed.

Lemma processing_count N M w :
  Inv N M w →
  Fsq.countProcessing (Fsq.queue w)
  = Z.of_nat (length (tasks_in_state w Task.processing)).
Proof.
  intros HI. rewrite (inv_count _ _ _ _ _ HI).
  rewrite <- (processing_goroutines N M w HI), length_fmap. done.
Qed.


(** A task that a step adds to the started goroutines was dispatched by
    the [processTask] that ends the step. *)
Lemma step_dispatched N M w w' p :
  Inv N M w → Fsq.step w w' →
  Some p ∈ Fsq.goroutines w' → Some p ∉ Fsq.goroutines w →
  ∃ w1 t, Inv N M w1 ∧ dispatched w1 w' p t.
Proof.
  intros HI Hstep Hin Hnotin.
  destruct Hstep as [w|w|w a pr id w' err HAdd|w i r w' Hi Hgo]; [done|done| |].
  - revert HAdd. unfold Fsq.Add.
    destruct (Fsq.isRunning (Fsq.queue w)) eqn:Hrun; simpl;
      [|intros [= <- <-]; done].
    destruct (RingBuffer.IsFull (Fsq.items (Fsq.queue w))) eqn:Hfull;
      [intros [= <- <-]; done|].
    destruct (decide (blank id)) as [Hb|Hb].
    { rewrite isValidId_blank by done. simpl. intros [= <- <-]. done. }
    destruct (Fsq.waitingTasksByExternalId (Fsq.queue w) !! id) eqn:Hlk.
    { rewrite isValidId_duplicate by eauto. simpl. intros [= <- <-]. done. }
    intros HAdd.
    destruct (Add_succeeds _ _ N M w a pr id HI Hrun Hfull Hb Hlk)
      as (w1 & w2 & p0 & HAdd' & HI1 & Hadm & _ & _ & Hdisp).
    unfold Fsq.Add in HAdd'. rewrite Hrun, Hfull in HAdd'. simpl in HAdd'.
    rewrite HAdd' in HAdd. injection HAdd as <- <-.
    destruct Hadm as (_ & Hgo1 & _).
    destruct Hdisp as [->|(p' & t & Hd)].
    { rewrite Hgo1 in Hin. done. }
    exists w1, t. split; [done|].
    pose proof Hd as (? & ? & ? & Hgo2 & ?).
    rewrite Hgo2, Hgo1 in Hin.
    by apply elem_of_app in Hin as [?|[= ->]%list_elem_of_singleton].
  - destruct (actionWrapper_spec _ _ N M w i r HI Hi)
      as (w1 & w2 & p0 & Hgo' & HI1 & Hfin & _ & _ & Hdisp).
    rewrite Hgo' in Hgo. injection Hgo as <-.
    destruct Hfin as (_ & Hgo1 & _).
    assert (∀ x, x ∈ delete i (Fsq.goroutines w) → x ∈ Fsq.goroutines w)
      as Hsub.
    { intros x. apply sublist_subseteq, sublist_delete. }
    destruct Hdisp as [->|(p' & t & Hd)].
    { rewrite Hgo1 in Hin. by apply Hsub in Hin. }
    exists w1, t. split; [done|].
    pose proof Hd as (? & ? & ? & Hgo2 & ?).
    rewrite Hgo2, Hgo1 in Hin.
    apply elem_of_app in Hin as [Hin|[= ->]%list_elem_of_singleton]; [|done].
    by apply Hsub in Hin.
Qed.

(** No admission error has the text of another. *)
Lemma errNotRunning_ne name : Fsq.errNotRunning name ≠ Fsq.errDuplicateId.
Proof. done. Qed.

Lemma errNoCapacity_ne name : Fsq.errNoCapacity name ≠ Fsq.errDuplicateId.
Proof. done. Qed.

(** The ids of the index are the external ids of the tasks in state
    Waiting. *)
Lemma waiting_index N M w id :
  Inv N M w →
  is_Some (Fsq.waitingTasksByExternalId (Fsq.queue w) !! id) ↔
  ∃ p t, Fsq.heap w !! p = Some t ∧ Task.state t = Task.waiting ∧
         Task.externalId t = id.
Proof.
  intros HI. split.
  - intros [r Hr].
    destruct (inv_wait _ _ _ _ _ HI id r Hr) as (Hin & t & Hd & He).
    destruct (inv_buf_state _ _ _ _ _ _ HI Hin) as (t' & Hd' & Hs).
    assert (t' = t) as -> by congruence.
    apply deref_Some in Hd as (p & -> & Hp). eauto.
  - intros (p & t & Hp & Hs & He).
    destruct (inv_cover _ _ _ _ _ HI p) as [Hin|[Hin|Hin]].
    { by eapply lookup_lt_Some. }
    + destruct (inv_buf _ _ _ _ _ HI _ Hin) as (t' & Hd & _ & _ & Hlk).
      rewrite deref_at in Hd. assert (t' = t) as -> by congruence.
      rewrite He in Hlk. eauto.
    + destruct (inv_pool _ _ _ _ _ HI _ Hin) as (t' & Hd & Hs').
      rewrite deref_at in Hd. assert (t' = t) as -> by congruence.
      rewrite Hs in Hs'. done.
    + destruct (inv_run _ _ _ _ _ HI _ Hin) as (t' & Hd & Hs').
      rewrite deref_at in Hd. assert (t' = t) as -> by congruence.
      rewrite Hs in Hs'. done.
Qed.


(** C10.  [Init] keeps the concurrency limit it is given.  With a limit
    M that is zero or negative, in every world the queue reaches
    (capacity at most 2^62) countProcessing is 0, no goroutine was
    started, no task is Processing and [processTask] dispatches nothing;
    the tasks of the buffer are Waiting and no step takes one out; [Add]
    with a valid id that is not waiting succeeds and appends a Waiting
    task to the buffer as long as the queue is running and the buffer is
    not full, and fails with CapacityExceeded once it is full. *)
Theorem no_dispatch_without_limit size name M w :
  size ≤ 2 ^ 62 → M ≤ 0 → Fsq.reachable size name M w →
  Fsq.maxProcessing (Fsq.Init size name M) = M ∧
  Fsq.maxProcessing (Fsq.queue w) = M ∧
  Fsq.countProcessing (Fsq.queue w) = 0 ∧
  Fsq.goroutines w = [] ∧
  tasks_in_state w Task.processing = [] ∧
  Fsq.processTask w = Some w ∧
  (∀ r, r ∈ buffered w → in_state w Task.waiting r) ∧
  (∀ w', Fsq.step w w' → buffered w `prefix_of` buffered w') ∧
  (∀ a pr id,
     Fsq.isRunning (Fsq.queue w) = true →
     RingBuffer.IsFull (Fsq.items (Fsq.queue w)) = false →
     ¬ blank id →
     Fsq.waitingTasksByExternalId (Fsq.queue w) !! id = None →
     ∃ w' p, Fsq.Add a pr id w = Some (w', None) ∧
             buffered w' = buffered w ++ [Some p] ∧
             in_state w' Task.waiting (Some p)) ∧
  (∀ a pr id,
     Fsq.isRunning (Fsq.queue w) = true →
     RingBuffer.IsFull (Fsq.items (Fsq.queue w)) = true →
     Fsq.Add a pr id w
     = Some (w, Some (Fsq.errNoCapacity (Fsq.Name (Fsq.queue w))))).
Proof.
  intros Hsize HM Hreach.
  assert (M ≤ GoInt.max_int) as HMi by (unfold GoInt.max_int; int_lia).
  pose proof (reachable_Inv _ _ size name M w Hsize HMi Hreach) as HI.
  set (N := RingBuffer.MaxSize (Fsq.items (Fsq.Init size name M))) in *.
  assert (∀ w0 : World, Inv N M w0 →
            Fsq.countProcessing (Fsq.queue w0) = 0 ∧
            Fsq.goroutines w0 = [] ∧ Fsq.processTask w0 = Some w0) as Hidle.
  { intros w0 HI0.
    pose proof (inv_bound _ _ _ _ _ HI0) as Hb.
    pose proof (inv_count _ _ _ _ _ HI0) as Hc.
    pose proof (inv_M _ _ _ _ _ HI0) as HMw.
    assert (Fsq.countProcessing (Fsq.queue w0) = 0) as H0 by lia.
    split; [done|]. split.
    - destruct (Fsq.goroutines w0); [done|]. simpl in Hc. lia.
    - apply processTask_refuses. lia. }
  assert (∀ a pr id,
     Fsq.isRunning (Fsq.queue w) = true →
     RingBuffer.IsFull (Fsq.items (Fsq.queue w)) = false →
     ¬ blank id →
     Fsq.waitingTasksByExternalId (Fsq.queue w) !! id = None →
     ∃ w' p, Fsq.Add a pr id w = Some (w', None) ∧
             buffered w' = buffered w ++ [Some p] ∧
             in_state w' Task.waiting (Some p)) as Hadd.
  { intros a pr id Hrun Hfull Hb Hlk.
    destruct (Add_succeeds _ _ N M w a pr id HI Hrun Hfull Hb Hlk)
      as (w1 & w2 & p0 & HAdd & HI1 & Hadm & Hpt & _).
    destruct (Hidle w1 HI1) as (_ & _ & Hpt1).
    rewrite Hpt1 in Hpt. injection Hpt as <-.
    exists w1, p0. split; [done|].
    destruct Hadm as (Hbuf & _ & _ & _ & _ & _ & _ & t' & Hp & Hs & _).
    split; [done|]. exists t'. by rewrite deref_at. }
  destruct (Hidle w HI) as (Hc & Hgo & Hpt).
  split; [done|]. split; [apply HI|]. split; [done|]. split; [done|].
  split.
  { pose proof (processing_goroutines N M w HI) as Hperm.
    rewrite Hgo in Hperm. apply Permutation_nil_r in Hperm.
    by apply fmap_nil_inv in Hperm. }
  split; [done|]. split; [intros r; by eapply inv_buf_state|].
  split; [|split; [done|]].
  - intros w' Hstep.
    destruct Hstep as [w|w|w a pr id w' err HAdd|w i r w' Hi _]; [done|done| |].
    + revert HAdd. unfold Fsq.Add.
      destruct (Fsq.isRunning (Fsq.queue w)) eqn:Hrun; simpl;
        [|by intros [= <- <-]].
      destruct (RingBuffer.IsFull (Fsq.items (Fsq.queue w))) eqn:Hfull;
        [by intros [= <- <-]|].
      destruct (decide (blank id)) as [Hb|Hb].
      { rewrite isValidId_blank by done. simpl. by intros [= <- <-]. }
      destruct (Fsq.waitingTasksByExternalId (Fsq.queue w) !! id) eqn:Hlk.
      { rewrite isValidId_duplicate by eauto. simpl. by intros [= <- <-]. }
      intros HAdd.
      destruct (Hadd a pr id eq_refl eq_refl Hb Hlk)
        as (w2 & p & HAdd' & Hbuf & _).
      unfold Fsq.Add in HAdd'. rewrite Hrun, Hfull in HAdd'. simpl in HAdd'.
      rewrite HAdd' in HAdd. injection HAdd as <- <-.
      rewrite Hbuf. by apply prefix_app_r.
    + by rewrite Hgo in Hi.
  - intros a pr id Hrun Hfull. unfold Fsq.Add. by rewrite Hrun, Hfull.
Qed.

End reachability.

(** ** The tasks a queue allocates *)

Section allocation.

Variables (value Env : Type).

Local Abbreviation task := (Task.task value Env).
Local Abbreviation World := (Fsq.World value Env).

Implicit Types (w : World) (t : task) (r : taskref) (p : ptr)
  (q : Fsq.FixedSizeQueue) (h : list task).

Lemma wrap_succ n : GoInt.add (GoInt.wrap n) 1 = GoInt.wrap (n + 1).
Proof.
  unfold GoInt.add, GoInt.wrap.
  replace (n + 2 ^ 63) with ((n + 1 + 2 ^ 63) - 1) by lia.
  set (m := n + 1 + 2 ^ 63).
  replace ((m - 1) `mod` 2 ^ 64 - 2 ^ 63 + 1 + 2 ^ 63)
    with ((m - 1) `mod` 2 ^ 64 + 1) by lia.
  rewrite Zplus_mod_idemp_l. f_equal. f_equal. lia.
Qed.

Lemma update_length r (f : task → task) h h' :
  Fsq.update r f h = Some h' → length h' = length h.
Proof.
  unfold Fsq.update. destruct r as [p|]; simpl; [|done].
  destruct (h !! p); simpl; [|done]. intros [= <-]. apply length_insert.
Qed.

Lemma processTask_same_tasks w w' :
  Fsq.processTask w = Some w' → same_tasks w w'.
Proof.
  unfold Fsq.processTask, same_tasks. case_decide; [by intros [= <-]|].
  destruct (RingBuffer.Dequeue _) as [[rb r]|]; simpl; [|done].
  destruct r as [p|]; [|by intros [= <-]].
  destruct (Fsq.deref _ _) as [t|]; simpl; [|done].
  destruct (Fsq.update _ _ _) as [h'|] eqn:Hu; simpl; [|done].
  intros [= <-]. simpl. split; [by eapply update_length|done].
Qed.

Lemma fillAndEnqueue_same_tasks a pr id r q h q' h' :
  Fsq.fillAndEnqueue a pr id r q h = Some (q', h') →
  length h' = length h ∧ Fsq.taskCount q' = Fsq.taskCount q.
Proof.
  unfold Fsq.fillAndEnqueue.
  destruct (Fsq.update r _ h) as [h1|] eqn:H1; simpl; [|done].
  destruct (Fsq.update r _ h1) as [h2|] eqn:H2; simpl; [|done].
  destruct (Fsq.update r _ h2) as [h3|] eqn:H3; simpl; [|done].
  destruct (Fsq.update r _ h3) as [h4|] eqn:H4; simpl; [|done].
  destruct (RingBuffer.Enqueue _ _) as [[rb e]|]; simpl; [|done].
  intros [= <- <-]. simpl. split; [|done].
  apply update_length in H1, H2, H3, H4. congruence.
Qed.

Lemma obtainTask_tasks q h r q' h' :
  Fsq.obtainTask q h = Some (r, q', h') →
  (length h' = length h ∧ Fsq.taskCount q' = Fsq.taskCount q) ∨
  (Fsq.readyTaskPool q = [] ∧ length h' = S (length h) ∧
   Fsq.taskCount q' = GoInt.add (Fsq.taskCount q) 1).
Proof.
  unfold Fsq.obtainTask. case_decide as Hpool.
  - destruct (Fsq.popTask _) as [r0 pool]. intros [= <- <- <-]. by left.
  - destruct (Fsq.update _ _ _) as [h1|] eqn:H1; simpl; [|done].
    destruct (Fsq.deref _ _) as [t|]; simpl; [|done].
    intros [= <- <- <-]. right. simpl.
    split; [|split; [|done]].
    + destruct (Fsq.readyTaskPool q); [done|]. simpl in Hpool. lia.
    + apply update_length in H1. rewrite H1, length_app. simpl. lia.
Qed.

Lemma Add_tasks a pr id w w' err :
  Fsq.Add a pr id w = Some (w', err) →
  same_tasks w w' ∨
  (Fsq.isRunning (Fsq.queue w) = true ∧
   RingBuffer.IsFull (Fsq.items (Fsq.queue w)) = false ∧
   Fsq.readyTaskPool (Fsq.queue w) = [] ∧
   length (Fsq.heap w') = S (length (Fsq.heap w)) ∧
   Fsq.taskCount (Fsq.queue w')
   = GoInt.add (Fsq.taskCount (Fsq.queue w)) 1).
Proof.
  unfold Fsq.Add.
  destruct (Fsq.isRunning (Fsq.queue w)) eqn:Hrun; simpl;
    [|intros [= <- <-]; by left].
  destruct (RingBuffer.IsFull (Fsq.items (Fsq.queue w))) eqn:Hfull;
    [intros [= <- <-]; by left|].
  destruct (Fsq.isValidId _ _).2; [intros [= <- <-]; by left|].
  destruct (Fsq.obtainTask _ _) as [[[r q1] h1]|] eqn:Hob; simpl; [|done].
  destruct (Fsq.fillAndEnqueue _ _ _ _ _ _) as [[q2 h2]|] eqn:Hfe; simpl;
    [|done].
  destruct (Fsq.processTask _) as [w2|] eqn:Hpt; simpl; [|done].
  intros [= <- <-].
  apply processTask_same_tasks in Hpt as [Hl2 Hc2]. simpl in Hl2, Hc2.
  apply fillAndEnqueue_same_tasks in Hfe as [Hl1 Hc1].
  apply obtainTask_tasks in Hob as [[Hl0 Hc0]|(Hnil & Hl0 & Hc0)].
  - left. split; congruence.
  - right. repeat split; try done; congruence.
Qed.

Lemma actionWrapper_same_tasks r w w' g :
  Fsq.actionWrapper r (Fsq.set_goroutines g w) = Some w' → same_tasks w w'.
Proof.
  unfold Fsq.actionWrapper. simpl.
  destruct (Fsq.deref _ _) as [t|]; simpl; [|done].
  destruct (Task.CallAction _ _) as [e err].
  destruct (Fsq.update _ _ _) as [h1|] eqn:H1; simpl; [|done].
  intros [Hl Hc]%processTask_same_tasks. simpl in Hl, Hc.
  apply update_length in H1. split; congruence.
Qed.

(** Every task is in the buffer, in the pool or running: there are no
    more tasks than places. *)
Lemma tasks_le_places N M w :
  Inv N M w →
  (length (Fsq.heap w)
   ≤ length (buffered w) + length (Fsq.readyTaskPool (Fsq.queue w))
     + length (Fsq.goroutines w))%nat.
Proof.
  intros HI.
  assert (Some <$> seq 0 (length (Fsq.heap w))
          ⊆+ buffered w ++ Fsq.readyTaskPool (Fsq.queue w)
             ++ Fsq.goroutines w) as Hsub.
  { apply NoDup_submseteq.
    - apply NoDup_fmap_2; [apply _|]. apply NoDup_seq.
    - intros r (p & -> & Hp)%list_elem_of_fmap.
      apply elem_of_seq in Hp. rewrite !elem_of_app.
      apply (inv_cover _ _ _ _ _ HI). lia. }
  apply submseteq_length in Hsub.
  rewrite length_fmap, length_seq, !length_app in Hsub. lia.
Qed.

Lemma same_tasks_allocated N M w w' :
  same_tasks w w' → allocated N M w → allocated N M w'.
Proof. intros [Hl Hc] [Hb Ht]. unfold allocated. by rewrite Hl, Hc. Qed.

Lemma step_allocated N M w w' :
  Inv N M w → allocated N M w → Fsq.step w w' → allocated N M w'.
Proof.
  intros HI Hal Hstep.
  destruct Hstep as [w|w|w a pr id w' err HAdd|w i r w' Hi Hgo].
  - done.
  - done.
  - apply Add_tasks in HAdd as [Hsame|(Hrun & Hfull & Hnil & Hl & Hc)].
    { by eapply same_tasks_allocated. }
    pose proof (tasks_le_places N M w HI) as Hle.
    rewrite Hnil in Hle. simpl in Hle.
    pose proof (inv_rb _ _ _ _ _ HI) as (_ & _ & Hsz & Hf & _).
    pose proof (inv_N _ _ _ _ _ HI) as HN.
    pose proof (inv_count _ _ _ _ _ HI) as Hcnt.
    pose proof (inv_bound _ _ _ _ _ HI) as Hbnd.
    pose proof (rb_contents_length (Fsq.items (Fsq.queue w))) as Hbl.
    fold (buffered w) in Hbl.
    assert (RingBuffer.CurrentSize (Fsq.items (Fsq.queue w)) ≠ N) as Hne.
    { rewrite <- HN. intros Heq%Hf. congruence. }
    destruct Hal as [Hb Ht]. split.
    + rewrite Hl. lia.
    + rewrite Hc, Ht, Hl, wrap_succ. f_equal. lia.
  - apply actionWrapper_same_tasks in Hgo. by eapply same_tasks_allocated.
Qed.


End allocation.

(** ** The claims at example worlds *)

Section examples.

Import Examples.

Lemma stopped_reachable size M : Fsq.reachable size "q" M (stopped size M).
Proof. apply Fsq.reachable_init. Qed.

Lemma started_reachable size M : Fsq.reachable size "q" M (started size M).
Proof.
  eapply Fsq.reachable_step; [apply stopped_reachable|]. apply Fsq.step_Start.
Qed.

Lemma one_runs_one_waits_reachable :
  Fsq.reachable 1 "q" 1 one_runs_one_waits.
Proof.
  eapply Fsq.reachable_step; [eapply Fsq.reachable_step|].
  - apply started_reachable.
  - apply (Fsq.step_Add _ _ _ (Some count_call) (Some ∅) "id-1" _ None).
    vm_compute. reflexivity.
  - apply (Fsq.step_Add _ _ _ (Some count_call) (Some ∅) "id-2" _ None).
    vm_compute. reflexivity.
Qed.

Lemma x_runs_step : Fsq.step (started 3 1) x_runs.
Proof.
  apply (Fsq.step_Add _ _ _ (Some count_call) (Some ∅) "x" _ None).
  vm_compute. reflexivity.
Qed.

Lemma a_waits_reachable : Fsq.reachable 2 "q" 0 a_waits.
Proof.
  eapply Fsq.reachable_step; [apply started_reachable|].
  apply (Fsq.step_Add _ _ _ (Some count_call) (Some ∅) "a" _ None).
  vm_compute. reflexivity.
Qed.

Lemma small_capacity n : n ≤ 3 → n ≤ 2 ^ 62.
Proof. int_lia. Qed.

Lemma small_int n : -1 ≤ n ≤ 5 → GoInt.is_int n.
Proof. unfold GoInt.is_int, GoInt.min_int, GoInt.max_int. int_lia. Qed.

Lemma blank_two_spaces : blank "  ".
Proof. vm_compute. reflexivity. Qed.

(** C1.  A queue of capacity 1 and limit 1 allocates two task objects:
    after [Start] and the [Add] of "id-1" and "id-2", the first task runs,
    the second waits, and the id counter is 2. *)
Theorem task_count_exceeds_capacity :
  Fsq.reachable 1 "q" 1 one_runs_one_waits ∧
  RingBuffer.MaxSize (Fsq.items (Fsq.queue one_runs_one_waits)) = 1 ∧
  Fsq.taskCount (Fsq.queue one_runs_one_waits) = 2 ∧
  length (Fsq.heap one_runs_one_waits) = 2%nat ∧
  size (Fsq.tasksById (Fsq.queue one_runs_one_waits)) = 2%nat ∧
  Task.state <$> Fsq.heap one_runs_one_waits = [Task.processing; Task.waiting].
Proof.
  split; [apply one_runs_one_waits_reachable|]. vm_compute. repeat split.
Qed.

(** C2, as stated, fails: on a stopped queue [Add] with an id of two
    spaces fails with the NotRunning error, not with InvalidId. *)
Lemma Add_blank_id_stopped :
  blank "  " ∧
  Fsq.isRunning (Fsq.queue (stopped 10 5)) = false ∧
  Fsq.Add None None "  " (stopped 10 5)
  = Some (stopped 10 5, Some (Fsq.errNotRunning "q")) ∧
  ¬ ∃ w', Fsq.Add None None "  " (stopped 10 5)
          = Some (w', Some Fsq.errInvalidId).
Proof.
  split; [apply blank_two_spaces|]. split; [reflexivity|].
  split; [vm_compute; reflexivity|].
  intros (w' & Hw'). vm_compute in Hw'. discriminate Hw'.
Qed.

Lemma Add_blank_id_witness :
  blank "  " ∧
  Fsq.Add None None "  " (started 10 5)
  = Some (started 10 5, Some Fsq.errInvalidId).
Proof.
  split; [vm_compute; reflexivity|].
  apply (Add_blank_id unit nat (started 10 5) None None "  ").
  vm_compute. reflexivity.
Defined.





Lemma no_dispatch_without_limit_witness :
  (2 ≤ 2 ^ 62 ∧ 0 ≤ 0 ∧ Fsq.reachable 2 "q" 0 a_waits) ∧
  Fsq.countProcessing (Fsq.queue a_waits) = 0 ∧
  Fsq.goroutines a_waits = [] ∧
  Fsq.processTask a_waits = Some a_waits.
Proof.
  assert (2 ≤ 2 ^ 62) as H1 by (apply small_capacity; lia).
  assert (0 ≤ 0) as H2 by lia.
  split.
  - split; [exact H1|]. split; [exact H2|apply a_waits_reachable].
  - destruct (no_dispatch_without_limit unit nat 2 "q" 0 a_waits
                H1 H2 a_waits_reachable)
      as (_ & _ & H3 & H4 & _ & H5 & _).
    split; [exact H3|]. split; [exact H4|exact H5].
Defined.

Lemma Add_full_unchanged_witness :
  (Fsq.isRunning (Fsq.queue one_runs_one_waits) = true ∧
   RingBuffer.IsFull (Fsq.items (Fsq.queue one_runs_one_waits)) = true) ∧
  Fsq.Add (Some count_call) (Some ∅) "id-3" one_runs_one_waits
  = Some (one_runs_one_waits, Some (Fsq.errNoCapacity "q")).
Proof.
  assert (Fsq.isRunning (Fsq.queue one_runs_one_waits) = true) as H1
    by (vm_compute; reflexivity).
  assert (RingBuffer.IsFull (Fsq.items (Fsq.queue one_runs_one_waits)) = true)
    as H2 by (vm_compute; reflexivity).
  split; [split; [exact H1|exact H2]|].
  exact (Add_full_unchanged unit nat one_runs_one_waits
           (Some count_call) (Some ∅) "id-3" H1 H2).
Defined.

Lemma enqueue_dequeue_fifo_witness :
  (rb_wf (RingBuffer.createRingBuffer 3) ∧
   3 ≤ RingBuffer.MaxSize (RingBuffer.createRingBuffer 3) ∧
   RingBuffer.CurrentSize (RingBuffer.createRingBuffer 3) = 0) ∧
  ∃ rb', enqueue3_dequeue3 (RingBuffer.createRingBuffer 3)
           (Some 0%nat) (Some 1%nat) (Some 2%nat)
         = Some (rb', [None; None; None],
                 [Some 0%nat; Some 1%nat; Some 2%nat]) ∧
         RingBuffer.CurrentSize rb' = 0 ∧ RingBuffer.IsFull rb' = false ∧
         rb_contents rb' = [] ∧
         RingBuffer.MaxSize rb'
         = RingBuffer.MaxSize (RingBuffer.createRingBuffer 3).
Proof.
  assert (rb_wf (RingBuffer.createRingBuffer 3)) as Hwf.
  { apply createRingBuffer_wf. split; [lia|apply small_capacity; lia]. }
  assert (3 ≤ RingBuffer.MaxSize (RingBuffer.createRingBuffer 3)) as H3
    by (simpl; lia).
  assert (RingBuffer.CurrentSize (RingBuffer.createRingBuffer 3) = 0) as H0
    by reflexivity.
  split; [split; [exact Hwf|split; [exact H3|exact H0]]|].
  exact (enqueue_dequeue_fifo (RingBuffer.createRingBuffer 3)
           (Some 0%nat) (Some 1%nat) (Some 2%nat) Hwf H3 H0).
Defined.

Lemma ring_buffer_invariant_witness :
  1 ≤ 2 ≤ 2 ^ 62 ∧
  ∃ rb, rb_run three_in_one_out (RingBuffer.createRingBuffer 2) = Some rb ∧
        RingBuffer.MaxSize rb = 2 ∧
        0 ≤ RingBuffer.CurrentSize rb ≤ 2 ∧
        (RingBuffer.IsFull rb = true ↔ RingBuffer.CurrentSize rb = 2) ∧
        0 ≤ RingBuffer.head rb < 2 ∧ 0 ≤ RingBuffer.tail rb < 2.
Proof.
  assert (1 ≤ 2 ≤ 2 ^ 62) as H by (split; [lia|apply small_capacity; lia]).
  split; [exact H|]. exact (ring_buffer_invariant 2 three_in_one_out H).
Defined.

Lemma CallAction_spec_witness :
  Task.CallAction unset_task 0%nat
  = (0%nat, Some Task.errInvalidTaskState) ∧
  Task.CallAction set_task 0%nat = (1%nat, Some "fail inside action").
Proof.
  split.
  - exact (proj1 (CallAction_spec unit nat unset_task 0%nat)
             (or_introl eq_refl)).
  - exact (proj1 (proj2 (CallAction_spec unit nat set_task 0%nat))
             fail_inside ∅ eq_refl eq_refl).
Defined.

Lemma Init_spec_witness :
  RingBuffer.MaxSize (Fsq.items (Fsq.Init 0 "q" 1)) = 1 ∧
  RingBuffer.MaxSize (Fsq.items (Fsq.Init 5 "q" 1)) = 5.
Proof.
  split.
  - apply (proj1 (Init_spec 0 "q" 1)). lia.
  - apply (proj1 (proj2 (Init_spec 5 "q" 1))). lia.
Defined.

End examples.

(** * Further properties of the code *)

(** ** The ring buffer *)

Section ring_buffer_more.

Import RingBuffer.

Lemma rb_contents_empty rb : CurrentSize rb = 0 → rb_contents rb = [].
Proof. intros H. unfold rb_contents. by rewrite H. Qed.

Lemma rb_exec_obs_fifo o rb :
  rb_wf rb →
  ∃ rb', rb_exec_obs o rb
         = Some (rb', (fifo_exec (MaxSize rb) o (rb_contents rb)).2) ∧
         rb_contents rb' = (fifo_exec (MaxSize rb) o (rb_contents rb)).1 ∧
         rb_wf rb' ∧ MaxSize rb' = MaxSize rb.
Proof.
  intros Hwf. pose proof Hwf as (_ & _ & Hsz & _).
  pose proof (rb_contents_length rb (proj1 Hsz)) as Hlen.
  destruct o as [task|]; simpl.
  - case_decide as Hfull.
    + rewrite Hlen in Hfull. rewrite Enqueue_full by done. simpl. eauto.
    + rewrite Hlen in Hfull.
      destruct (Enqueue_spec rb task Hwf) as (rb' & -> & ? & ? & _ & ? & _);
        [lia|]. simpl. eauto.
  - destruct (decide (CurrentSize rb = 0)) as [H0|H0].
    + rewrite Dequeue_empty, rb_contents_empty by done. simpl.
      exists rb. by rewrite rb_contents_empty.
    + destruct (Dequeue_spec rb Hwf) as (rb' & t & -> & ? & Hc & _ & ? & _);
        [lia|]. simpl. rewrite Hc. simpl. eauto.
Qed.

(** X1.  On a well-formed ring buffer every sequence of Enqueue and
    Dequeue runs without a panic and cannot be told from the same
    sequence on a FIFO list of at most MaxSize items: each Enqueue fails
    exactly when the list is full, each Dequeue returns the oldest item
    (nil when there is none), and the items left are the same, in the
    same order. *)
Theorem ring_buffer_is_bounded_fifo ops rb :
  rb_wf rb →
  ∃ rb', rb_trace ops rb
         = Some (rb', (fifo_trace (MaxSize rb) ops (rb_contents rb)).2) ∧
         rb_contents rb' = (fifo_trace (MaxSize rb) ops (rb_contents rb)).1 ∧
         rb_wf rb' ∧ MaxSize rb' = MaxSize rb.
Proof.
  revert rb. induction ops as [|o ops IH]; intros rb Hwf; simpl.
  - eauto.
  - destruct (rb_exec_obs_fifo o rb Hwf) as (rb1 & -> & Hc1 & Hwf1 & Hm1).
    simpl.
    destruct (fifo_exec (MaxSize rb) o (rb_contents rb)) as [l1 x] eqn:Hex.
    simpl in *.
    destruct (IH rb1 Hwf1) as (rb2 & -> & Hc2 & Hwf2 & Hm2). simpl.
    rewrite Hm1, Hc1 in *.
    destruct (fifo_trace (MaxSize rb) ops l1) as [l2 xs]. simpl in *.
    exists rb2. split; [done|]. split; [done|]. split; [done|]. congruence.
Qed.

Lemma rb_exec_vacated o rb rb' :
  rb_wf rb → rb_vacated rb → rb_exec o rb = Some rb' → rb_vacated rb'.
Proof.
  intros (HN & Hlen & Hsz & Hfull & Hh & Ht) Hvac.
  destruct o as [task|]; simpl.
  - unfold Enqueue. case_decide as Hf; [by intros [= <-]|].
    rewrite !add_small by int_lia. rewrite rem_pos by lia. simpl.
    assert (0 ≤ (head rb + CurrentSize rb) `mod` MaxSize rb < MaxSize rb)
      as Hmod by (apply Z.mod_pos_bound; lia).
    rewrite slice_set_in by lia. simpl. intros [= <-].
    intros k; simpl. intros Hk. unfold rb_slot; simpl.
    rewrite list_lookup_insert_ne.
    + apply Hvac. lia.
    + intros Heq%Z2Nat.inj; [|apply Z.mod_pos_bound; lia..].
      revert Heq.
      apply (mod_shift_ne (head rb) (CurrentSize rb) k (MaxSize rb)); lia.
  - unfold Dequeue. case_decide as H0; [by intros [= <-]|].
    rewrite slice_get_in by lia.
    destruct (lookup_lt_is_Some_2 (items rb) (Z.to_nat (head rb))) as [x Hx];
      [lia|].
    rewrite Hx. simpl. rewrite slice_set_in by lia. simpl.
    rewrite add_small by int_lia. rewrite rem_pos by lia. simpl.
    rewrite sub_small by int_lia. intros [= <-].
    intros k; simpl. intros Hk. unfold rb_slot; simpl.
    rewrite Zplus_mod_idemp_l.
    destruct (decide (k + 1 = MaxSize rb)) as [Hlast|Hlast].
    + replace (head rb + 1 + k) with (head rb + 1 * MaxSize rb) by lia.
      rewrite Z.mod_add, Z.mod_small by lia.
      rewrite list_lookup_insert_eq by lia. done.
    + replace (head rb + 1 + k) with (head rb + (k + 1)) by lia.
      rewrite list_lookup_insert_ne.
      * apply Hvac. lia.
      * intros Heq%Z2Nat.inj; [|lia|apply Z.mod_pos_bound; lia].
        apply (mod_shift_ne (head rb) 0 (k + 1) (MaxSize rb)); [lia|lia|].
        rewrite Z.add_0_r, Z.mod_small by lia. done.
Qed.

Lemma rb_run_vacated ops rb rb' :
  rb_wf rb → rb_vacated rb → rb_run ops rb = Some rb' → rb_vacated rb'.
Proof.
  revert rb. induction ops as [|o ops IH]; intros rb Hwf Hvac; simpl.
  - by intros [= <-].
  - destruct (rb_exec o rb) as [rb1|] eqn:Hex; simpl; [|done].
    destruct (rb_exec_wf o rb Hwf) as (rb1' & Hex' & Hwf1 & _).
    assert (rb1' = rb1) as -> by congruence.
    apply IH; [done|]. exact (rb_exec_vacated o rb rb1 Hwf Hvac Hex).
Qed.

(** X2.  A Dequeue leaves no pointer behind: in the buffer reached from
    the one the package builds by any sequence of operations, every slot
    that is not nil is one of the CurrentSize slots from the head on. *)
Theorem vacated_slots_are_nil N ops rb :
  1 ≤ N ≤ 2 ^ 62 →
  rb_run ops (createRingBuffer N) = Some rb →
  ∀ i p, items rb !! i = Some (Some p) →
         (Z.of_nat i - head rb) `mod` N < CurrentSize rb.
Proof.
  intros HN Hrun i p Hi.
  pose proof (createRingBuffer_wf N HN) as Hwf0.
  destruct (rb_run_wf ops _ Hwf0) as (rb' & Hrun' & Hwf & Hmax).
  assert (rb' = rb) as -> by congruence. simpl in Hmax.
  assert (rb_vacated rb) as Hvac.
  { eapply rb_run_vacated; [exact Hwf0| |exact Hrun].
    intros k _. unfold rb_slot; simpl.
    destruct (replicate (Z.to_nat N) None !! _) as [x|] eqn:Hx; [|done].
    by apply lookup_replicate in Hx as [-> _]. }
  destruct Hwf as (_ & Hlen & _ & _ & Hh & _). rewrite Hmax in *.
  pose proof (lookup_lt_Some _ _ _ Hi) as Hlt.
  set (k := (Z.of_nat i - head rb) `mod` N).
  assert (0 ≤ k < N) as Hk by (apply Z.mod_pos_bound; lia).
  destruct (decide (k < CurrentSize rb)) as [|Hge]; [done|].
  specialize (Hvac k). rewrite Hmax in Hvac.
  unfold rb_slot in Hvac. rewrite Hmax in Hvac.
  assert ((head rb + k) `mod` N = Z.of_nat i) as Hidx.
  { subst k. rewrite Zplus_mod_idemp_r.
    replace (head rb + (Z.of_nat i - head rb)) with (Z.of_nat i) by lia.
    apply Z.mod_small. lia. }
  rewrite Hidx, Nat2Z.id, Hi in Hvac. simpl in Hvac.
  discriminate Hvac. lia.
Qed.

End ring_buffer_more.

(** ** The pool, the tasks and the running flag *)

Section pool_and_tasks.

Variables (value Env : Type).

Local Abbreviation task := (Task.task value Env).
Local Abbreviation World := (Fsq.World value Env).

Implicit Types (w : World) (t : task).

(** X3.  The pool is a stack: [popTask] on the empty slice returns nil
    and leaves it empty; after tasks are appended, as [actionWrapper]
    appends them, as many [popTask] return them, last appended first,
    and leave the slice as it was before. *)
Theorem popTask_lifo :
  Fsq.popTask [] = (None, []) ∧
  (∀ tasks r, Fsq.popTask (tasks ++ [r]) = (r, tasks)) ∧
  (∀ tasks pushed,
     popTasks (length pushed) (tasks ++ pushed) = (reverse pushed, tasks)).
Proof.
  split; [done|]. split; [apply popTask_snoc|].
  intros tasks pushed. revert tasks.
  induction pushed as [|r pushed IH] using rev_ind; intros tasks.
  - by rewrite app_nil_r.
  - rewrite length_app, Nat.add_comm, reverse_snoc, app_assoc. simpl.
    by rewrite popTask_snoc, IH.
Qed.

Lemma with_flag_deref b w :
  Fsq.heap (with_flag b w) = Fsq.heap w.
Proof. done. Qed.

Lemma processTask_with_flag b w :
  Fsq.processTask (with_flag b w) = with_flag b <$> Fsq.processTask w.
Proof.
  unfold Fsq.processTask; simpl. case_decide; [done|].
  destruct (RingBuffer.Dequeue _) as [[rb r]|]; simpl; [|done].
  destruct r as [p|]; [|done].
  destruct (Fsq.deref _ _) as [t|]; simpl; [|done].
  by destruct (Fsq.update _ _ _).
Qed.

(** X4.  The running flag gates admission and nothing else.  [Start] and
    [Stop] set the flag that [IsRunning] reads and touch no other field;
    on a stopped queue every [Add] fails with NotRunning and changes
    nothing, whatever the id and the state of the buffer; a dispatch and
    the end of a goroutine do the same to a stopped queue as to a running
    one. *)
Theorem running_flag_gates_admission_only w :
  Fsq.IsRunning (Fsq.Start (Fsq.queue w)) = true ∧
  Fsq.IsRunning (Fsq.Stop (Fsq.queue w)) = false ∧
  Fsq.set_isRunning (Fsq.isRunning (Fsq.queue w)) (Fsq.Start (Fsq.queue w))
  = Fsq.queue w ∧
  Fsq.set_isRunning (Fsq.isRunning (Fsq.queue w)) (Fsq.Stop (Fsq.queue w))
  = Fsq.queue w ∧
  (∀ a pr id,
     Fsq.Add a pr id (with_flag false w)
     = Some (with_flag false w,
             Some (Fsq.errNotRunning (Fsq.Name (Fsq.queue w))))) ∧
  (∀ b, Fsq.processTask (with_flag b w) = with_flag b <$> Fsq.processTask w) ∧
  (∀ b r, Fsq.actionWrapper r (with_flag b w)
          = with_flag b <$> Fsq.actionWrapper r w).
Proof.
  split; [done|]. split; [done|].
  split; [by destruct w as [[] ? ? ?]|]. split; [by destruct w as [[] ? ? ?]|].
  split; [done|]. split; [intros; apply processTask_with_flag|].
  intros b r. unfold Fsq.actionWrapper; simpl.
  destruct (Fsq.deref _ _) as [t|]; simpl; [|done].
  destruct (Task.CallAction _ _) as [e err].
  destruct (Fsq.update _ _ _) as [h|]; simpl; [|done].
  by rewrite <- processTask_with_flag.
Qed.

End pool_and_tasks.

(** ** The steps of a queue, by what they write *)

Section step_effects.

Variables (value Env : Type).

Local Abbreviation task := (Task.task value Env).
Local Abbreviation World := (Fsq.World value Env).

Implicit Types (w : World) (t : task) (r : taskref) (p : ptr)
  (q : Fsq.FixedSizeQueue) (h : list task).

Lemma Add_admission a pr id w :
  Fsq.isRunning (Fsq.queue w) = true →
  RingBuffer.IsFull (Fsq.items (Fsq.queue w)) = false →
  (Fsq.isValidId (Fsq.queue w) id).2 = None →
  Fsq.Add a pr id w
  = w1 ← admission a pr id w; w' ← Fsq.processTask w1; Some (w', None).
Proof.
  intros Hrun Hfull Hvalid. unfold Fsq.Add, admission.
  rewrite Hrun, Hfull, Hvalid. simpl.
  destruct (Fsq.obtainTask _ _) as [[[r q1] h1]|]; simpl; [|done].
  by destruct (Fsq.fillAndEnqueue _ _ _ _ _ _) as [[q2 h2]|].
Qed.

Lemma actionWrapper_completion r w :
  Fsq.actionWrapper r w = completion r w ≫= Fsq.processTask.
Proof.
  unfold Fsq.actionWrapper, completion.
  destruct (Fsq.deref _ _) as [t|]; simpl; [|done].
  destruct (Task.CallAction _ _) as [e err].
  by destruct (Fsq.update _ _ _).
Qed.

Lemma admission_spec N M w a pr id :
  Inv N M w →
  RingBuffer.IsFull (Fsq.items (Fsq.queue w)) = false →
  ¬ blank id →
  Fsq.waitingTasksByExternalId (Fsq.queue w) !! id = None →
  ∃ w1 p t0, admission a pr id w = Some w1 ∧ Inv N M w1 ∧
             admission_effect a pr id w w1 p t0.
Proof.
  intros HI Hfull Hnb Hfresh.
  pose proof (inv_rb _ _ _ _ _ HI) as Hwf.
  assert (RingBuffer.CurrentSize (Fsq.items (Fsq.queue w))
          < RingBuffer.MaxSize (Fsq.items (Fsq.queue w))) as Hroom.
  { destruct Hwf as (_ & _ & Hsz & Hf & _).
    destruct (decide (RingBuffer.CurrentSize (Fsq.items (Fsq.queue w))
                      = RingBuffer.MaxSize (Fsq.items (Fsq.queue w))))
      as [Heq|Hne]; [|lia].
    apply Hf in Heq. congruence. }
  unfold admission, Fsq.obtainTask.
  destruct (decide (0 < length (Fsq.readyTaskPool (Fsq.queue w)))%nat)
    as [Hpool|Hpool].
  - destruct (exists_last (l := Fsq.readyTaskPool (Fsq.queue w)))
      as (pool' & r & Hpool_eq).
    { intros Hnil. rewrite Hnil in Hpool. simpl in Hpool. lia. }
    rewrite Hpool_eq, popTask_snoc. simpl.
    assert (r ∈ Fsq.readyTaskPool (Fsq.queue w)) as Hr.
    { rewrite Hpool_eq. apply elem_of_app. right. by left. }
    pose proof (inv_pool _ _ _ _ _ HI r Hr) as Hready.
    destruct (Hready) as (t & Hd & Hs).
    apply deref_Some in Hd as (p & -> & Hp).
    destruct (Enqueue_spec _ (Some p) Hwf Hroom)
      as (rb' & Henq & Hwf' & Hcont & Hsize & HN' & _).
    erewrite fillAndEnqueue_spec; [|done|exact Henq]. simpl.
    set (w1 := {| Fsq.queue := _; Fsq.heap := _ |}).
    exists w1, p, t. split; [done|]. split.
    { pose proof (inv_pool_nodup _ _ _ _ _ HI) as Hnd.
      rewrite Hpool_eq in Hnd. apply NoDup_app in Hnd as (Hnd' & Hdisj & _).
      eapply (Inv_admission _ _ N M w w1 p (filled a pr id t) id);
        subst w1; simpl; try done.
      - rewrite HN'. apply HI.
      - intros r' t' Hne Hd'. by rewrite deref_insert_ne.
      - by eapply deref_insert_eq.
      - intros p'. rewrite length_insert. auto.
      - intros Hin.
        by eapply (in_state_ne _ _ w Task.waiting Task.ready);
          [eapply inv_buf_state| | |].
      - intros Hin.
        by eapply (in_state_ne _ _ w Task.processing Task.ready);
          [eapply inv_run| | |].
      - intros Hin. eapply Hdisj; [done|]. by left.
      - intros r' Hr'. rewrite Hpool_eq. apply elem_of_app. by left.
      - intros r'. rewrite Hpool_eq.
        intros [?| ->%list_elem_of_singleton]%elem_of_app; auto. }
    subst w1. unfold admission_effect, accepted, buffered; simpl.
    split; [|split; [done|split; [done|]]].
    + repeat split; try done.
      exists (filled a pr id t). split; [|done].
      apply list_lookup_insert_eq. by eapply lookup_lt_Some.
    + left. by rewrite Hpool_eq.
  - assert (Fsq.readyTaskPool (Fsq.queue w) = []) as Hnil.
    { destruct (Fsq.readyTaskPool (Fsq.queue w)); [done|].
      simpl in Hpool. lia. }
    set (p := length (Fsq.heap w)).
    set (c := GoInt.add (Fsq.taskCount (Fsq.queue w)) 1).
    assert ((Fsq.heap w ++ [Task.zero]) !! p
            = Some (Task.zero (value:=value) (Env:=Env)))
      as Hzero by (by apply list_lookup_middle).
    rewrite (update_Some _ _ _ _ _ _ Hzero). simpl.
    rewrite (deref_insert_eq _ _ _ _ _ _ Hzero). simpl.
    destruct (Enqueue_spec _ (Some p) Hwf Hroom)
      as (rb' & Henq & Hwf' & Hcont & Hsize & HN' & _).
    assert (<[p := Task.SetId c Task.zero]> (Fsq.heap w ++ [Task.zero]) !! p
            = Some (Task.SetId c (Task.zero (value:=value) (Env:=Env)))) as Hp.
    { apply list_lookup_insert_eq. by eapply lookup_lt_Some. }
    erewrite fillAndEnqueue_spec; [|exact Hp|exact Henq]. simpl.
    assert (<[p := filled a pr id (Task.SetId c Task.zero)]>
              (<[p := Task.SetId c Task.zero]> (Fsq.heap w ++ [Task.zero]))
            = Fsq.heap w ++ [filled a pr id (Task.SetId c Task.zero)])
      as Hheap.
    { rewrite list_insert_insert_eq. subst p.
      rewrite insert_app_r_alt by lia. by rewrite Nat.sub_diag. }
    rewrite Hheap.
    set (w1 := {| Fsq.queue := _; Fsq.heap := _ |}).
    assert (∀ r, is_Some (Fsq.deref r (Fsq.heap w)) → r ≠ Some p) as Hvalid.
    { intros r [t Ht] ->. rewrite deref_at in Ht.
      apply lookup_lt_Some in Ht. subst p. lia. }
    exists w1, p, (Task.SetId c Task.zero). split; [done|]. split.
    { eapply (Inv_admission _ _ N M w w1 p
                (filled a pr id (Task.SetId c Task.zero)) id);
        subst w1; simpl; try done.
      - rewrite HN'. apply HI.
      - intros r' t' Hne Hd'.
        apply deref_Some in Hd' as (p' & -> & Hp'). rewrite deref_at.
        by apply lookup_app_l_Some.
      - rewrite deref_at. by apply list_lookup_middle.
      - intros p'. rewrite length_app. simpl. subst p. lia.
      - intros Hin. eapply Hvalid; [|done].
        destruct (inv_buf_state _ _ _ _ _ _ HI Hin) as (? & ? & _). eauto.
      - intros Hin. eapply Hvalid; [|done].
        destruct (inv_run _ _ _ _ _ HI _ Hin) as (? & ? & _). eauto.
      - rewrite Hnil. apply not_elem_of_nil.
      - apply HI.
      - auto. }
    subst w1. unfold admission_effect, accepted, buffered; simpl.
    split; [|split; [done|split; [done|]]].
    + repeat split; try done.
      exists (filled a pr id (Task.SetId c Task.zero)). split; [|done].
      by apply list_lookup_middle.
    + right. by rewrite Hnil.
Qed.

Lemma completion_spec N M w i r :
  Inv N M w → Fsq.goroutines w !! i = Some r →
  ∃ w1 p t,
    r = Some p ∧
    completion r (Fsq.set_goroutines (delete i (Fsq.goroutines w)) w)
    = Some w1 ∧
    Inv N M w1 ∧ completion_effect w w1 i p t.
Proof.
  intros HI Hi.
  assert (r ∈ Fsq.goroutines w) as Hr by (by eapply list_elem_of_lookup_2).
  pose proof (inv_run _ _ _ _ _ HI r Hr) as Hproc.
  destruct Hproc as (t & Hd & Hs).
  pose proof Hd as Hd'. apply deref_Some in Hd' as (p & -> & Hp).
  unfold completion. simpl. rewrite Hd. simpl.
  destruct (Task.CallAction t (Fsq.env w)) as [e err] eqn:Hcall.
  rewrite (update_Some _ _ _ _ _ _ Hp). simpl.
  pose proof (inv_count _ _ _ _ _ HI) as Hcount.
  pose proof (inv_bound _ _ _ _ _ HI) as Hbound.
  pose proof (inv_M_int _ _ _ _ _ HI) as HMi.
  pose proof (lookup_lt_Some _ _ _ Hi) as Hlen.
  rewrite sub_small by (unfold GoInt.max_int in HMi; int_lia).
  set (w1 := {| Fsq.queue := _; Fsq.heap := _ |}).
  exists w1, p, t. split; [done|]. split; [done|]. split.
  { assert (∀ r' s, in_state w s r' → s ≠ Task.processing →
                    Fsq.deref r' (Fsq.heap w1) = Fsq.deref r' (Fsq.heap w))
      as Hkeep.
    { intros r' s Hin Hne. subst w1; simpl. apply deref_insert_ne.
      eapply (in_state_ne _ _ w s Task.processing); [done|by exists t|done]. }
    constructor; subst w1; simpl; unfold buffered; simpl.
    - apply HI.
    - apply HI.
    - apply HI.
    - done.
    - rewrite length_delete by eauto. lia.
    - lia.
    - apply HI.
    - apply NoDup_app. split; [apply HI|]. split; [|apply NoDup_singleton].
      intros r' Hr' ->%list_elem_of_singleton.
      eapply (in_state_ne _ _ w Task.ready Task.processing); [| |done|done].
      + by eapply inv_pool.
      + by exists t.
    - apply NoDup_delete, HI.
    - intros r' Hr'.
      destruct (inv_buf _ _ _ _ _ HI r' Hr') as (t' & Hd' & Hs' & Hb' & Hi').
      exists t'. split; [|done].
      rewrite <- Hd'. apply (Hkeep r' Task.waiting); [by exists t'|done].
    - intros id r' Hlk.
      destruct (inv_wait _ _ _ _ _ HI id r' Hlk) as (Hin & t' & Hd' & He').
      split; [done|]. exists t'. split; [|done].
      rewrite <- Hd'. eapply (Hkeep r' Task.waiting); [|done].
      by eapply inv_buf_state.
    - intros r' [Hr'| ->%list_elem_of_singleton]%elem_of_app.
      + destruct (inv_pool _ _ _ _ _ HI r' Hr') as (t' & Hd' & Hs').
        exists t'. simpl. split; [|done].
        rewrite <- Hd'. apply (Hkeep r' Task.ready); [by exists t'|done].
      + eexists. simpl. split; [by eapply deref_insert_eq|done].
    - intros r' [Hr' Hne]%(elem_of_delete_NoDup _ _ (Some p));
        [|apply HI|done].
      destruct (inv_run _ _ _ _ _ HI r' Hr') as (t' & Hd' & Hs').
      exists t'. simpl. split; [|done]. by rewrite deref_insert_ne.
    - intros p'. rewrite length_insert. intros Hp'.
      destruct (inv_cover _ _ _ _ _ HI p' Hp') as [Hin|[Hin|Hin]].
      + by left.
      + right; left. apply elem_of_app. by left.
      + destruct (decide (p' = p)) as [->|Hne].
        * right; left. apply elem_of_app. right. by left.
        * right; right.
          apply (elem_of_delete_NoDup _ _ (Some p)); [apply HI|done|].
          split; [done|congruence]. }
  subst w1. unfold completion_effect, finished, buffered; simpl.
  rewrite Hcall. repeat split; done.
Qed.

Lemma processTask_frame w w' :
  Fsq.processTask w = Some w' →
  Fsq.tasksById (Fsq.queue w') = Fsq.tasksById (Fsq.queue w) ∧
  Fsq.taskCount (Fsq.queue w') = Fsq.taskCount (Fsq.queue w) ∧
  Fsq.env w' = Fsq.env w ∧
  Fsq.Name (Fsq.queue w') = Fsq.Name (Fsq.queue w).
Proof.
  unfold Fsq.processTask. case_decide; [by intros [= <-]|].
  destruct (RingBuffer.Dequeue _) as [[rb r]|]; simpl; [|done].
  destruct r as [p|]; [|by intros [= <-]].
  destruct (Fsq.deref _ _) as [t|]; simpl; [|done].
  destruct (Fsq.update _ _ _) as [h'|] eqn:Hu; simpl; [|done].
  by intros [= <-].
Qed.

(** A [processTask] that changes nothing had nothing to do. *)
Lemma processTask_idle N M w :
  Inv N M w → Fsq.processTask w = Some w →
  Fsq.maxProcessing (Fsq.queue w) ≤ Fsq.countProcessing (Fsq.queue w)
  ∨ buffered w = [].
Proof.
  intros HI Hpt.
  destruct (decide (Fsq.maxProcessing (Fsq.queue w)
                    ≤ Fsq.countProcessing (Fsq.queue w))) as [|Hlt];
    [by left|].
  right. pose proof (inv_rb _ _ _ _ _ HI) as Hwf.
  destruct (decide (RingBuffer.CurrentSize (Fsq.items (Fsq.queue w)) = 0))
    as [H0|H0].
  { unfold buffered, rb_contents. by rewrite H0. }
  exfalso. revert Hpt. unfold Fsq.processTask. rewrite decide_False by done.
  destruct (Dequeue_spec _ Hwf) as (rb' & r & -> & _ & Hcont & _).
  { destruct Hwf as (_ & _ & ? & _). lia. }
  simpl.
  assert (r ∈ buffered w) as Hr by (unfold buffered; rewrite Hcont; left).
  destruct (inv_buf _ _ _ _ _ HI r Hr) as (t & Hderef & _).
  pose proof Hderef as (p & -> & Hp)%deref_Some.
  rewrite Hderef. simpl. rewrite (update_Some _ _ _ _ _ _ Hp). simpl.
  intros [= Heq]. apply (f_equal Fsq.goroutines) in Heq. simpl in Heq.
  apply (f_equal length) in Heq. rewrite length_app in Heq. simpl in Heq. lia.
Qed.

Lemma processTask_effect N M w :
  Inv N M w → ∃ w', dispatch_effect N M w w'.
Proof.
  intros HI.
  destruct (processTask_spec _ _ N M w HI) as (w' & Hpt & HI' & Hcases).
  exists w'. unfold dispatch_effect.
  destruct (processTask_frame w w' Hpt) as (? & ? & ? & ?).
  repeat (split; [done|]).
  destruct Hcases as [->|(p & t & Hd)].
  - left. split; [done|]. by eapply processTask_idle.
  - right. exists p, t. split; [done|].
    rewrite (inv_count _ _ _ _ _ HI'), (inv_count _ _ _ _ _ HI).
    destruct Hd as (_ & _ & _ & -> & _). rewrite length_app. simpl. lia.
Qed.

Lemma Add_effect N M w a pr id w' :
  Inv N M w → Fsq.Add a pr id w = Some (w', None) →
  ∃ w1 p t0,
    Fsq.isRunning (Fsq.queue w) = true ∧
    Inv N M w1 ∧ admission_effect a pr id w w1 p t0 ∧
    dispatch_effect N M w1 w'.
Proof.
  intros HI HAdd. pose proof HAdd as HAdd'. revert HAdd. unfold Fsq.Add.
  destruct (Fsq.isRunning (Fsq.queue w)) eqn:Hrun; simpl; [|done].
  destruct (RingBuffer.IsFull (Fsq.items (Fsq.queue w))) eqn:Hfull; [done|].
  destruct (decide (blank id)) as [Hb|Hb].
  { by rewrite isValidId_blank. }
  destruct (Fsq.waitingTasksByExternalId (Fsq.queue w) !! id) eqn:Hlk.
  { by rewrite isValidId_duplicate by eauto. }
  intros _.
  rewrite Add_admission in HAdd'; [|done|done|by rewrite isValidId_ok].
  destruct (admission_spec N M w a pr id HI Hfull Hb Hlk)
    as (w1 & p & t0 & Hadm & HI1 & Heff).
  rewrite Hadm in HAdd'. simpl in HAdd'.
  destruct (processTask_effect N M w1 HI1) as (w2 & Hdisp).
  pose proof Hdisp as (Hpt & _). rewrite Hpt in HAdd'. simpl in HAdd'.
  injection HAdd' as <-. by exists w1, p, t0.
Qed.

Lemma Add_refused a pr id w w' err :
  Fsq.Add a pr id w = Some (w', Some err) → w' = w.
Proof.
  unfold Fsq.Add.
  destruct (Fsq.isRunning (Fsq.queue w)); simpl; [|by intros [= <-]].
  destruct (RingBuffer.IsFull (Fsq.items (Fsq.queue w))); [by intros [= <-]|].
  destruct (Fsq.isValidId _ _).2; [by intros [= <-]|].
  destruct (Fsq.obtainTask _ _) as [[[r q1] h1]|]; simpl; [|done].
  destruct (Fsq.fillAndEnqueue _ _ _ _ _ _) as [[q2 h2]|]; simpl; [|done].
  by destruct (Fsq.processTask _).
Qed.

Lemma go_effect N M w i r w' :
  Inv N M w → Fsq.goroutines w !! i = Some r →
  Fsq.actionWrapper r (Fsq.set_goroutines (delete i (Fsq.goroutines w)) w)
  = Some w' →
  ∃ w1 p t,
    r = Some p ∧ Inv N M w1 ∧ completion_effect w w1 i p t ∧
    dispatch_effect N M w1 w'.
Proof.
  intros HI Hi Hgo. rewrite actionWrapper_completion in Hgo.
  destruct (completion_spec N M w i r HI Hi)
    as (w1 & p & t & -> & Hcomp & HI1 & Heff).
  rewrite Hcomp in Hgo. simpl in Hgo.
  destruct (processTask_effect N M w1 HI1) as (w2 & Hdisp).
  pose proof Hdisp as (Hpt & _). rewrite Hpt in Hgo.
  injection Hgo as <-. by exists w1, p, t.
Qed.

(** Every step of a world that satisfies the invariant is one of the
    four. *)
Lemma step_effects N M w w' :
  Inv N M w → Fsq.step w w' → step_effect N M w w'.
Proof.
  intros HI Hstep.
  destruct Hstep as [w|w|w a pr id w' err HAdd|w i r w' Hi Hgo].
  - by apply (effect_flag _ _ _ _ _ _ true).
  - by apply (effect_flag _ _ _ _ _ _ false).
  - destruct err as [err|].
    + apply effect_refused. by eapply Add_refused.
    + destruct (Add_effect N M w a pr id w' HI HAdd)
        as (w1 & p & t0 & ? & ? & ? & ?).
      by eapply effect_Add.
  - destruct (go_effect N M w i r w' HI Hi Hgo) as (w1 & p & t & -> & ? & ? & ?).
    by eapply effect_go.
Qed.

End step_effects.

(** ** Further properties of the worlds a queue reaches *)

Section reachable_more.

Variables (value Env : Type).

Local Abbreviation task := (Task.task value Env).
Local Abbreviation World := (Fsq.World value Env).

Implicit Types (w : World) (t : task) (r : taskref) (p : ptr).

Lemma reachable_step_effect size name M w w' :
  size ≤ 2 ^ 62 → GoInt.is_int M →
  Fsq.reachable size name M w → Fsq.step w w' →
  step_effect (RingBuffer.MaxSize (Fsq.items (Fsq.Init size name M))) M w w'.
Proof.
  intros Hsize [_ HM] Hreach Hstep. apply step_effects; [|done].
  by apply reachable_Inv.
Qed.



Lemma dispatch_work_conserving N M (w1 w' : World) :
  Inv N M w1 →
  dispatch_effect N M w1 w' →
  buffered w1 = [] ∨
  (∃ r, buffered w1 = [r]) ∨
  Fsq.maxProcessing (Fsq.queue w1) ≤ Fsq.countProcessing (Fsq.queue w1) + 1 →
  work_conserving w'.
Proof.
  intros HI1 (_ & HI' & _ & _ & _ & _ & Hcases) Hpre.
  destruct Hcases as [[-> Hidle]|(p & t & Hd & Hcnt)].
  - destruct Hidle; [by right|by left].
  - destruct Hd as (Hbuf & _ & _ & _ & _ & _ & _ & _ & Hlt).
    destruct Hpre as [Hnil|[[r Hone]|Hle]].
    + by rewrite Hnil in Hbuf.
    + rewrite Hone in Hbuf. injection Hbuf as _ Hnil. by left.
    + right. rewrite (inv_M _ _ _ _ _ HI'), <- (inv_M _ _ _ _ _ HI1). lia.
Qed.

Lemma reachable_work_conserving size name M w :
  size ≤ 2 ^ 62 → GoInt.is_int M → Fsq.reachable size name M w →
  work_conserving w.
Proof.
  intros Hsize HM Hreach. induction Hreach as [e|w w' Hreach IH Hstep].
  - by left.
  - pose proof (reachable_step_effect size name M w w' Hsize HM Hreach Hstep)
      as Heff.
    destruct Heff as [b ->| ->|a pr id w1 p t0 _ HI1 Hadm Hd|i w1 p t HI1 Hcomp Hd].
    + done.
    + done.
    + eapply dispatch_work_conserving; [exact HI1|exact Hd|].
      destruct Hadm as ((Hbuf1 & _ & _ & _ & Hcnt & Hmax & _) & _).
      destruct IH as [Hnil|Hle].
      * right; left. exists (Some p). by rewrite Hbuf1, Hnil.
      * right; right. rewrite Hcnt, Hmax. lia.
    + eapply dispatch_work_conserving; [exact HI1|exact Hd|].
      destruct Hcomp as ((_ & _ & Hbuf1 & _ & _ & _ & _ & Hmax & Hcnt) & _).
      destruct IH as [Hnil|Hle].
      * left. by rewrite Hbuf1.
      * right; right. rewrite Hcnt, Hmax. lia.
Qed.


End reachable_more.

(** ** Further properties of admissions and of the ends of goroutines *)

Section tasks_more.

Variables (value Env : Type).

Local Abbreviation task := (Task.task value Env).
Local Abbreviation World := (Fsq.World value Env).

Implicit Types (w : World) (t : task) (r : taskref) (p : ptr).

(** What a dispatch does to one task. *)
Lemma dispatch_task N M (w1 w' : World) p t :
  Inv N M w1 → dispatch_effect N M w1 w' →
  Fsq.heap w1 !! p = Some t →
  (Fsq.heap w' !! p = Some t ∧
   (Some p ∈ buffered w1 → Some p ∈ buffered w')) ∨
  (Task.state t = Task.waiting ∧
   Fsq.heap w' !! p = Some (Task.SetStateProcessing t) ∧
   Some p ∈ Fsq.goroutines w' ∧
   Fsq.waitingTasksByExternalId (Fsq.queue w') !! Task.externalId t = None).
Proof.
  intros HI1 (_ & _ & _ & _ & _ & _ & [[-> _]|(p' & t' & Hd & _)]) Hp.
  { by left. }
  destruct Hd as (Hbuf & Hp' & Hheap & Hgo & Hwait & _).
  destruct (decide (p' = p)) as [->|Hne].
  - right. assert (t' = t) as -> by congruence.
    destruct (inv_buf_state _ _ N M w1 (Some p) HI1) as (t'' & Hd'' & Hst).
    { rewrite Hbuf. by left. }
    rewrite deref_at in Hd''. assert (t'' = t) as -> by congruence.
    split; [done|]. split.
    { rewrite Hheap. apply list_lookup_insert_eq. by eapply lookup_lt_Some. }
    split.
    { rewrite Hgo. apply elem_of_app. right. by left. }
    rewrite Hwait. apply lookup_delete_eq.
  - left. split.
    { rewrite Hheap. by rewrite list_lookup_insert_ne. }
    rewrite Hbuf. intros [[= ?]|?]%elem_of_cons; done.
Qed.

Lemma dispatch_pool N M (w1 w' : World) :
  dispatch_effect N M w1 w' →
  Fsq.readyTaskPool (Fsq.queue w') = Fsq.readyTaskPool (Fsq.queue w1) ∧
  length (Fsq.heap w') = length (Fsq.heap w1) ∧
  Fsq.isRunning (Fsq.queue w') = Fsq.isRunning (Fsq.queue w1).
Proof.
  intros (_ & _ & _ & _ & _ & _ & [[-> _]|(p' & t' & Hd & _)]); [done|].
  destruct Hd as (_ & _ & -> & _ & _ & _ & -> & -> & _).
  by rewrite length_insert.
Qed.





End tasks_more.

(** ** The internal ids, the index and the pool *)

Section ids_and_pool.

Variables (value Env : Type).

Local Abbreviation task := (Task.task value Env).
Local Abbreviation World := (Fsq.World value Env).

Implicit Types (w : World) (t : task) (r : taskref) (p : ptr).

Lemma reachable_allocated size name M w :
  size ≤ 2 ^ 62 → GoInt.is_int M → Fsq.reachable size name M w →
  allocated (RingBuffer.MaxSize (Fsq.items (Fsq.Init size name M))) M w.
Proof.
  intros Hsize [_ HM] Hreach. induction Hreach as [e|w w' Hreach IH Hstep].
  - split; simpl; [|done]. case_decide; lia.
  - eapply step_allocated; [|done|done]. by apply reachable_Inv.
Qed.

Lemma ids_kept_in_order w w1 :
  ids_kept w w1 → ids_in_order w → ids_in_order w1.
Proof.
  intros (Hby & Hcnt & Hlen & Hheap) (Hc & Hh & Hm).
  unfold ids_in_order. rewrite Hby, Hcnt, Hlen. split; [done|]. split.
  - intros p t1 Hp. destruct (Hheap p t1 Hp) as (t & Ht & ->). by apply Hh.
  - done.
Qed.

Lemma ids_kept_insert w w1 p t f :
  Fsq.heap w !! p = Some t →
  Fsq.heap w1 = <[p := f t]> (Fsq.heap w) →
  Task.id (f t) = Task.id t →
  Fsq.tasksById (Fsq.queue w1) = Fsq.tasksById (Fsq.queue w) →
  Fsq.taskCount (Fsq.queue w1) = Fsq.taskCount (Fsq.queue w) →
  ids_kept w w1.
Proof.
  intros Hp Hheap Hid Hby Hcnt. split; [done|]. split; [done|].
  rewrite Hheap. split; [by rewrite length_insert|].
  intros p1 t1. destruct (decide (p1 = p)) as [->|Hne].
  - rewrite list_lookup_insert_eq by (by eapply lookup_lt_Some).
    intros [= <-]. eauto.
  - rewrite list_lookup_insert_ne by done. eauto.
Qed.

Lemma dispatch_ids_kept N M (w1 w' : World) :
  dispatch_effect N M w1 w' → ids_kept w1 w'.
Proof.
  intros (_ & _ & Hby & Hcnt & _ & _ & [[-> _]|(p & t & Hd & _)]).
  { split; [done|]. split; [done|]. split; [done|]. eauto. }
  destruct Hd as (_ & Hp & Hheap & _).
  by eapply (ids_kept_insert _ _ p t Task.SetStateProcessing).
Qed.

Lemma step_ids_in_order N M w w' :
  step_effect N M w w' →
  Z.of_nat (length (Fsq.heap w')) ≤ GoInt.max_int →
  ids_in_order w → ids_in_order w'.
Proof.
  intros [b ->| ->|a pr id w1 p t0 _ _ Hadm Hd|i w1 p t _ Hcomp Hd] Hmax Hio.
  - done.
  - done.
  - apply (ids_kept_in_order w1); [by eapply dispatch_ids_kept|].
    destruct (dispatch_pool _ _ _ _ _ _ Hd) as (_ & Hlen' & _).
    destruct Hadm as (_ & _ & _ & [(_ & Hp & Hheap & Hby & Hcnt)|Hnew]).
    { apply (ids_kept_in_order w); [|done].
      by eapply (ids_kept_insert _ _ p t0 (filled a pr id)). }
    destruct Hnew as (_ & _ & Hp & Ht0 & Hheap & Hcnt & Hby).
    destruct Hio as (Hc & Hh & Hm).
    assert (GoInt.add (Fsq.taskCount (Fsq.queue w)) 1 = Z.of_nat p + 1) as Hadd.
    { rewrite Hc, <- Hp. apply add_small.
      rewrite Hlen', Hheap, length_app in Hmax. simpl in Hmax.
      unfold GoInt.max_int in Hmax. int_lia. }
    rewrite Hadd in *. unfold ids_in_order.
    rewrite Hcnt, Hby, Hheap, length_app. simpl. split; [lia|]. split.
    + intros p1 t1 Hp1. apply lookup_app_Some in Hp1 as [Hp1|[Hge Hp1]].
      * destruct (Hh p1 t1 Hp1) as [Hid Hlk]. split; [done|].
        rewrite lookup_insert_ne; [done|].
        apply lookup_lt_Some in Hp1. lia.
      * rewrite <- Hp in *.
        assert (p1 = p) as ->.
        { destruct (p1 - p)%nat as [|k] eqn:Hk; [lia|done]. }
        rewrite Nat.sub_diag in Hp1. simpl in Hp1.
        injection Hp1 as <-. subst t0. split; [done|].
        by rewrite lookup_insert_eq.
    + intros k r. destruct (decide (k = Z.of_nat p + 1)) as [->|Hne].
      * rewrite lookup_insert_eq. intros [= <-]. exists p.
        split; [done|]. split; [done|]. lia.
      * rewrite lookup_insert_ne by done. intros Hk.
        destruct (Hm k r Hk) as (p1 & ? & ? & ?). exists p1.
        split; [done|]. split; [done|]. lia.
  - apply (ids_kept_in_order w1); [by eapply dispatch_ids_kept|].
    apply (ids_kept_in_order w); [|done].
    destruct Hcomp as (_ & Hp & _ & Hheap & _ & Hby & Hcnt & _).
    by eapply (ids_kept_insert _ _ p t Task.Clean).
Qed.


Lemma Clean_ready t : Task.Clean t = t → Task.state t = Task.ready.
Proof. intros <-. done. Qed.

Lemma dispatch_pool_clean N M (w1 w' : World) :
  Inv N M w1 → dispatch_effect N M w1 w' → pool_clean w1 → pool_clean w'.
Proof.
  intros HI1 Hd Hpc r Hr.
  destruct (dispatch_pool _ _ _ _ _ _ Hd) as (Hpool & _).
  rewrite Hpool in Hr. destruct (Hpc r Hr) as (t & Hdr & Hcl).
  apply deref_Some in Hdr as (p & -> & Hp). exists t. split; [|done].
  rewrite deref_at.
  destruct (dispatch_task _ _ _ _ _ _ p t HI1 Hd Hp) as [[? _]|(Hw & _)];
    [done|].
  apply Clean_ready in Hcl. rewrite Hcl in Hw. done.
Qed.

Lemma step_pool_clean N M w w' :
  Inv N M w → step_effect N M w w' → pool_clean w → pool_clean w'.
Proof.
  intros HI [b ->| ->|a pr id w1 p t0 _ HI1 Hadm Hd|i w1 p t HI1 Hcomp Hd] Hpc.
  - done.
  - done.
  - apply (dispatch_pool_clean _ _ _ _ HI1 Hd).
    destruct Hadm as (_ & _ & _ & [(Hpool & Hp & Hheap & _)|(_ & Hnil & _)]).
    + intros r Hr.
      assert (r ∈ Fsq.readyTaskPool (Fsq.queue w)) as Hin.
      { rewrite Hpool. apply elem_of_app. by left. }
      destruct (Hpc r Hin) as (t & Hdr & Hcl). exists t. split; [|done].
      rewrite Hheap, deref_insert_ne; [done|]. intros ->.
      pose proof (inv_pool_nodup _ _ _ _ _ HI) as Hnd.
      rewrite Hpool in Hnd. apply NoDup_app in Hnd as (_ & Hnd & _).
      apply (Hnd _ Hr). by left.
    + intros r Hr. rewrite Hnil in Hr. by apply elem_of_nil in Hr.
  - apply (dispatch_pool_clean _ _ _ _ HI1 Hd).
    destruct Hcomp as (Hfin & Hp & Hst & Hheap & _).
    destruct Hfin as (Hi & _ & _ & _ & _ & Hpool & _).
    intros r Hr. rewrite Hpool in Hr.
    apply elem_of_app in Hr as [Hr|Hr].
    + destruct (Hpc r Hr) as (t1 & Hdr & Hcl). exists t1. split; [|done].
      rewrite Hheap, deref_insert_ne; [done|]. intros ->.
      rewrite deref_at in Hdr. assert (t1 = t) as -> by congruence.
      apply Clean_ready in Hcl. rewrite Hcl in Hst. done.
    + apply list_elem_of_singleton in Hr as ->. exists (Task.Clean t).
      split; [|done]. rewrite deref_at, Hheap.
      apply list_lookup_insert_eq. by eapply lookup_lt_Some.
Qed.




End ids_and_pool.

(** ** The outcome of [Add] *)

Section outcome.

Variables (value Env : Type).

Local Abbreviation task := (Task.task value Env).
Local Abbreviation World := (Fsq.World value Env).

Implicit Types (w : World) (t : task) (r : taskref) (p : ptr).


End outcome.

(** ** The further properties at example worlds *)

Section more_examples.

Import Examples MoreExamples.

Lemma x_runs_reachable : Fsq.reachable 3 "q" 1 x_runs.
Proof.
  eapply Fsq.reachable_step; [apply started_reachable|apply x_runs_step].
Qed.

Lemma x_done_step : Fsq.step x_runs x_done.
Proof.
  apply (Fsq.step_go _ _ x_runs 0%nat (Some 0%nat) x_done).
  - vm_compute. reflexivity.
  - vm_compute. reflexivity.
Qed.

Lemma x_done_reachable : Fsq.reachable 3 "q" 1 x_done.
Proof.
  eapply Fsq.reachable_step; [apply x_runs_reachable|apply x_done_step].
Qed.

Lemma Add_x :
  Fsq.Add (Some count_call) (Some ∅) "x" (started 3 1) = Some (x_runs, None).
Proof. vm_compute. reflexivity. Qed.

Lemma Add_y :
  Fsq.Add (Some count_call) (Some ∅) "y" x_done = Some (y_runs, None).
Proof. vm_compute. reflexivity. Qed.

Lemma two_fits : 1 ≤ 2 ≤ 2 ^ 62.
Proof. int_lia. Qed.

Lemma ring_buffer_is_bounded_fifo_witness :
  rb_wf (RingBuffer.createRingBuffer 2) ∧
  ∃ rb',
    rb_trace three_in_one_out (RingBuffer.createRingBuffer 2)
    = Some (rb', (fifo_trace 2 three_in_one_out []).2) ∧
    rb_contents rb' = (fifo_trace 2 three_in_one_out []).1 ∧
    rb_wf rb' ∧ RingBuffer.MaxSize rb' = 2.
Proof.
  pose proof (createRingBuffer_wf 2 two_fits) as Hwf.
  split; [exact Hwf|].
  exact (ring_buffer_is_bounded_fifo three_in_one_out
           (RingBuffer.createRingBuffer 2) Hwf).
Defined.

Lemma vacated_slots_are_nil_witness :
  (1 ≤ 2 ≤ 2 ^ 62 ∧
   rb_run three_in_one_out (RingBuffer.createRingBuffer 2)
   = Some two_in_one_out ∧
   RingBuffer.items two_in_one_out !! 1%nat = Some (Some 1%nat)) ∧
  (Z.of_nat 1 - RingBuffer.head two_in_one_out) `mod` 2
  < RingBuffer.CurrentSize two_in_one_out.
Proof.
  assert (rb_run three_in_one_out (RingBuffer.createRingBuffer 2)
          = Some two_in_one_out) as Hrun by (vm_compute; reflexivity).
  assert (RingBuffer.items two_in_one_out !! 1%nat = Some (Some 1%nat))
    as Hi by (vm_compute; reflexivity).
  split.
  - split; [exact two_fits|]. split; [exact Hrun|exact Hi].
  - exact (vacated_slots_are_nil 2 three_in_one_out two_in_one_out
             two_fits Hrun 1%nat 1%nat Hi).
Defined.









Lemma one_plus_one_fits :
  RingBuffer.MaxSize (Fsq.items (Fsq.Init 1 "q" 1)) + Z.max 1 0
  ≤ GoInt.max_int.
Proof. vm_compute. discriminate. Qed.






End more_examples.
